(** * Header parsers of the jain-sip JavaScript stack (webrtcomm)

    A shallow embedding of [SupportedParser], [AuthorizationParser] and
    [ToParser] together with the lexer they drive, and the properties of
    the header-parsing specification that concern them.

    The three parser files are embedded statement by statement, the
    diagnostic [logger.debug] calls apart.  The classes they call into ([Lexer], [HeaderParser], [ChallengeParser],
    [TokenTypes], the header value classes) are not among the sources;
    each such definition says in its comment where it comes from. *)

From Stdlib Require Import Ascii String List Arith Lia Bool.
From stdpp Require Import gmap strings list.
Import ListNotations.

Local Open Scope char_scope.
Local Open Scope list_scope.

(** ** Characters *)

Definition LF : ascii := "010".
Definition HT : ascii := "009".
Definition SP : ascii := " ".
Definition COMMA : ascii := ",".
Definition COLON : ascii := ":".
Definition EQUALS : ascii := "=".
Definition DQUOTE : ascii := "034".

Definition inRange (lo hi : nat) (c : ascii) : bool :=
  Nat.leb lo (nat_of_ascii c) && Nat.leb (nat_of_ascii c) hi.

Definition isDigit (c : ascii) : bool := inRange 48 57 c.
Definition isUpper (c : ascii) : bool := inRange 65 90 c.
Definition isLower (c : ascii) : bool := inRange 97 122 c.
Definition isAlphaDigit (c : ascii) : bool := isDigit c || isUpper c || isLower c.

(** Linear whitespace as [SPorHT] understands it: space or horizontal tab. *)
Definition isSPorHT (c : ascii) : bool :=
  Ascii.eqb c SP || Ascii.eqb c HT.

(** Modelled from the spec: the character class of an identifier run is
    not in the sources.  The spec fixes the wire grammar to RFC 3261, whose
    [token] is an alphanumeric or one of ten marks; an option-tag such as
    100rel starts with a digit, so digits may open an identifier. *)
Definition isTokenChar (c : ascii) : bool :=
  isAlphaDigit c ||
  existsb (Ascii.eqb c) ["-"; "."; "!"; "%"; "*"; "_"; "+"; "`"; "'"; "~"].

Definition toUpperChar (c : ascii) : ascii :=
  if isLower c then ascii_of_nat (nat_of_ascii c - 32) else c.

(** The longest prefix of [l] whose characters all satisfy [p], and what
    follows it. *)
Fixpoint run (p : ascii -> bool) (l : list ascii) : list ascii :=
  match l with
  | c :: l' => if p c then c :: run p l' else []
  | [] => []
  end.

Fixpoint after (p : ascii -> bool) (l : list ascii) : list ascii :=
  match l with
  | c :: l' => if p c then after p l' else l
  | [] => []
  end.

Definition str (l : list ascii) : string := string_of_list_ascii l.
Definition chars (s : string) : list ascii := list_ascii_of_string s.

(** ** Tokens and token kinds *)

(** Modelled from the spec: [TokenTypes] is not in the sources; these are
    the kinds the three parsers name. *)
Inductive TokenTypes : Set := ID | TO | AUTHORIZATION | SUPPORTED.

Definition TokenTypes_eqb (a b : TokenTypes) : bool :=
  match a, b with
  | ID, ID | TO, TO | AUTHORIZATION, AUTHORIZATION | SUPPORTED, SUPPORTED => true
  | _, _ => false
  end.

(** The argument of [lexer.match]: a token kind or a literal character. *)
Inductive Expected : Set :=
| Kind (k : TokenTypes)
| Char (c : ascii).

(** Token: kind, literal value, source offset. *)
Record Token : Set := mkToken {
  tokenType : TokenTypes;
  tokenValue : string;
  tokenOffset : nat
}.

(** Modelled from the spec: the keyword table of a lexer context.  The
    parsers select the context named command_keywordLexer, in which the
    header names are keywords; the table is keyed by the upper-case
    spelling, which is what makes the header-name match case-insensitive. *)
Definition keywordTable (lexerName : string) : list (string * TokenTypes) :=
  if String.eqb lexerName "command_keywordLexer" then
    [("TO"%string, TO); ("AUTHORIZATION"%string, AUTHORIZATION);
     ("SUPPORTED"%string, SUPPORTED)]
  else [].

Fixpoint assoc (key : string) (table : list (string * TokenTypes))
  : option TokenTypes :=
  match table with
  | (k, v) :: table' => if String.eqb key k then Some v else assoc key table'
  | [] => None
  end.

(** ** Failures *)

(** The failure taxonomy of the spec, each with the offending offset, plus
    the runtime failure of JavaScript when a member of [undefined] or
    [null] is used. *)
Inductive ParseException : Set :=
| HeaderNameMismatch (expected : TokenTypes) (actual : string) (offset : nat)
| UnexpectedToken (expected : TokenTypes) (actual : string) (offset : nat)
| UnexpectedCharacter (expected : ascii) (actual : option ascii) (offset : nat)
| MalformedAddress (offset : nat)
| MalformedAuthParam (offset : nat)
| PrematureEndOfInput (offset : nat)
| TypeError.

(** What a call does: return, throw, or use up the iteration bound of a
    loop ([Diverges]; the loops of SupportedParser are shown below never
    to do so). *)
Inductive outcome (A : Type) : Type :=
| Returns (a : A)
| Throws (e : ParseException)
| Diverges.
Arguments Returns {A} a.
Arguments Throws {A} e.
Arguments Diverges {A}.

(** ** The lexer *)

(** The lexer object: input buffer, cursor, active context, and the token
    of the last successful [match]. *)
Record Lexer : Set := mkLexer {
  buffer : list ascii;
  ptr : nat;
  currentLexerName : string;
  currentMatch : option Token
}.

(** Code that runs on a mutable state [S]: what it did to the state stays
    done when it throws. *)
Definition M (S A : Type) : Type := S -> outcome A * S.

Definition ret {S A} (a : A) : M S A := fun s => (Returns a, s).
Definition throw {S A} (e : ParseException) : M S A := fun s => (Throws e, s).
Definition diverge {S A} : M S A := fun s => (Diverges, s).

Definition bind {S A B} (m : M S A) (k : A -> M S B) : M S B :=
  fun s =>
    match m s with
    | (Returns a, s') => k a s'
    | (Throws e, s') => (Throws e, s')
    | (Diverges, s') => (Diverges, s')
    end.

(** A lexer method: the state is the lexer object itself. *)
Definition L (A : Type) : Type := M Lexer A.

Notation "'let*' x ':=' m 'in' k" := (bind m (fun x => k))
  (at level 10, x name, m at level 100, k at level 200).
Notation "m >> k" := (bind m (fun _ => k))
  (at level 100, k at level 200, right associativity).

(** The unread part of the buffer. *)
Definition rest (lx : Lexer) : list ascii := drop (ptr lx) (buffer lx).

Definition consume (n : nat) (lx : Lexer) : Lexer :=
  mkLexer (buffer lx) (ptr lx + n) (currentLexerName lx) (currentMatch lx).

(** Modelled from the spec: [new Lexer(lexerName, text)], a lexer over a
    standalone string with its cursor at offset 0. *)
Definition Lexer_new (lexerName : string) (text : string) : Lexer :=
  mkLexer (chars text) 0 lexerName None.

(** Modelled from the spec: [selectLexer(context)] switches the active
    keyword table; it does not move the cursor and cannot fail. *)
Definition selectLexer (lexerName : string) : L unit :=
  fun lx => (Returns tt,
             mkLexer (buffer lx) (ptr lx) lexerName (currentMatch lx)).

(** Modelled from the spec: [lookAhead(n)] peeks the character at offset
    [n] from the cursor without consuming.  Past the end of the buffer
    there is no character; whatever the lexer hands back there is equal to
    neither a newline nor a comma. *)
Definition lookAhead (n : nat) : L (option ascii) :=
  fun lx => (Returns (buffer lx !! (ptr lx + n)), lx).

(** Modelled from the spec: [SPorHT()] consumes zero or more space or tab
    characters at the cursor. *)
Definition SPorHT : L unit :=
  fun lx => (Returns tt, consume (length (run isSPorHT (rest lx))) lx).

(** The lexeme at the cursor, reported as the actual token of a failure. *)
Definition lexemeAt (lx : Lexer) : string :=
  match run isTokenChar (rest lx) with
  | [] => str (take 1 (rest lx))
  | id => str id
  end.

(** Modelled from the spec: [match(expected)] consumes the next character
    or token only if it equals [expected], and otherwise throws
    UnexpectedCharacter or UnexpectedToken with expected, actual and the
    offset, leaving the cursor where it was.
    - a literal character is compared with the character at the cursor;
    - [ID], the generic identifier, is matched by any non-empty identifier
      run;
    - a keyword kind is matched by an identifier run whose upper-case
      spelling the active keyword table maps to that kind.
    A matched token becomes the lexer's current match. *)
Definition match_ (expected : Expected) : L unit :=
  fun lx =>
    match expected with
    | Char c =>
        match buffer lx !! ptr lx with
        | Some c' =>
            if Ascii.eqb c' c then (Returns tt, consume 1 lx)
            else (Throws (UnexpectedCharacter c (Some c') (ptr lx)), lx)
        | None => (Throws (UnexpectedCharacter c None (ptr lx)), lx)
        end
    | Kind k =>
        let id := run isTokenChar (rest lx) in
        let accepted :=
          match id, k with
          | [], _ => false
          | _, ID => true
          | _, _ =>
              match assoc (str (map toUpperChar id))
                          (keywordTable (currentLexerName lx)) with
              | Some k' => TokenTypes_eqb k' k
              | None => false
              end
          end in
        if accepted then
          (Returns tt,
           mkLexer (buffer lx) (ptr lx + length id) (currentLexerName lx)
                   (Some (mkToken k (str id) (ptr lx))))
        else (Throws (UnexpectedToken k (lexemeAt lx) (ptr lx)), lx)
    end.

(** Modelled from the spec: [getNextToken()].  The parsers call it right
    after [match(ID)], drop the result of the match and take the tag from
    the token this call returns; the spec's algorithm has that pair of
    calls read one identifier token, and its examples have the tag be the
    identifier the match consumed.  The scanning of the lexeme and the
    advance of the cursor over it are therefore done once, by [match],
    which keeps the token as the current match; this call hands that token
    back and leaves the cursor alone.  Before any match there is no
    token. *)
Definition getNextToken : L (option Token) :=
  fun lx => (Returns (currentMatch lx), lx).

(** [token.getTokenValue()]; on a missing token JavaScript throws. *)
Definition getTokenValue (token : option Token) : L string :=
  match token with
  | Some t => ret (tokenValue t)
  | None => throw TypeError
  end.

(** ** HeaderParser *)

(** Modelled from the spec: [HeaderParser.prototype.headerName(tok)]
    matches the header-name token case-insensitively against [tok], then
    consumes the separator and the whitespace that follows; it fails with
    HeaderNameMismatch otherwise. *)
Definition headerName (tok : TokenTypes) : L unit :=
  fun lx =>
    match (match_ (Kind tok) >> match_ (Char COLON)) lx with
    | (Returns _, lx') => SPorHT lx'
    | (Throws _, lx') =>
        (Throws (HeaderNameMismatch tok (lexemeAt lx') (ptr lx')), lx')
    | (Diverges, lx') => (Diverges, lx')
    end.

(** [lexer.lookAhead(0) == c] on the peeked character. *)
Definition isChar (c : ascii) (la : option ascii) : bool :=
  match la with
  | Some c' => Ascii.eqb c' c
  | None => false
  end.

(** ** Supported *)

(** A [Supported] header object as the parser sees it: the two fields its
    setters write. *)
Record Supported : Set := mkSupported {
  Supported_headerName : option string;
  Supported_optionTag : option string
}.

Definition setHeaderName (s : Supported) (name : string) : Supported :=
  mkSupported (Some name) (Supported_optionTag s).

Definition setOptionTag (s : Supported) (tag : string) : Supported :=
  mkSupported (Supported_headerName s) (Some tag).

(** [SupportedList]: an ordered sequence; [add] appends at the end. *)
Definition SupportedList : Set := list Supported.
Definition SupportedList_add (l : SupportedList) (s : Supported) : SupportedList :=
  l ++ [s].

Section SupportedParser.

(** The object [new Supported()] yields.  The constructor is not among
    the sources, so the parser is embedded for every possible one. *)
Variable Supported_new : Supported.

Definition SupportedParser_SUPPORTED : string := "Supported".

(** One pass of the inner loop (lines 65-72). *)
Definition commaBody (supportedList : SupportedList) : L SupportedList :=
  match_ (Char COMMA) >>
  SPorHT >>
  let supported := Supported_new in
  match_ (Kind ID) >>
  let* token := getNextToken in
  let* tag := getTokenValue token in
  let supported := setOptionTag supported tag in
  SPorHT >>
  ret (SupportedList_add supportedList supported).

(** [while (this.lexer.lookAhead(0) == ',') { ... }] *)
Fixpoint commaLoop (fuel : nat) (supportedList : SupportedList)
  : L SupportedList :=
  match fuel with
  | O => diverge
  | S fuel' =>
      let* la := lookAhead 0 in
      if isChar COMMA la then
        let* supportedList' := commaBody supportedList in
        commaLoop fuel' supportedList'
      else ret supportedList
  end.

(** One pass of the outer loop (lines 56-73); [fuel] bounds the inner
    loop. *)
Definition tagBody (fuel : nat) (supportedList : SupportedList)
  : L SupportedList :=
  SPorHT >>
  let supported := Supported_new in
  let supported := setHeaderName supported SupportedParser_SUPPORTED in
  match_ (Kind ID) >>
  let* token := getNextToken in
  let* tag := getTokenValue token in
  let supported := setOptionTag supported tag in
  SPorHT >>
  let supportedList := SupportedList_add supportedList supported in
  commaLoop fuel supportedList.

(** [while (this.lexer.lookAhead(0) != '\n') { ... }] *)
Fixpoint tagLoop (fuel : nat) (supportedList : SupportedList)
  : L SupportedList :=
  match fuel with
  | O => diverge
  | S fuel' =>
      let* la := lookAhead 0 in
      if negb (isChar LF la) then
        let* supportedList' := tagBody fuel' supportedList in
        tagLoop fuel' supportedList'
      else ret supportedList
  end.

(** [SupportedParser.prototype.parse] with its loops bounded by [fuel]. *)
Definition SupportedParser_parse_bounded (fuel : nat) : L SupportedList :=
  let supportedList : SupportedList := [] in
  headerName SUPPORTED >>
  tagLoop fuel supportedList.

(** [SupportedParser.prototype.parse]: one more pass than the buffer has
    characters is allowed, which is never used up. *)
Definition SupportedParser_parse : L SupportedList :=
  fun lx => SupportedParser_parse_bounded (S (length (buffer lx))) lx.

End SupportedParser.

(** The option-tags of a parsed list, in order. *)
Definition optionTags (l : SupportedList) : list (option string) :=
  map Supported_optionTag l.

Definition nl : string := String LF EmptyString.

(** The lexer a parser builds for itself over a standalone string. *)
Definition commandLexer (text : string) : Lexer :=
  Lexer_new "command_keywordLexer" text.

Definition parseSupported (fresh : Supported) (text : string)
  : outcome SupportedList * Lexer :=
  SupportedParser_parse fresh (commandLexer text).

(** The option-tags [SupportedParser.parse] returns for a standalone
    string. *)
Definition parsedTags (fresh : Supported) (text : string)
  : outcome (list (option string)) :=
  match fst (parseSupported fresh text) with
  | Returns l => Returns (optionTags l)
  | Throws e => Throws e
  | Diverges => Diverges
  end.

(** A [Supported] object none of whose fields is set. *)
Definition noFields : Supported := mkSupported None None.

(** The text [s] between double quotes. *)
Definition quoted (s : string) : string :=
  String DQUOTE (s +:+ String DQUOTE EmptyString).

(** The Authorization example of the spec. *)
Definition digestExample : string :=
  "Authorization: Digest realm=" +:+ quoted "example.com" +:+
  ", nonce=" +:+ quoted "abc123" +:+ nl.

(** ** Authorization and the challenge sub-grammar *)

(** Modelled from the spec: the challenge / credentials value, an
    auth-scheme and an ordered sequence of (name, value) pairs in which
    duplicates are kept. *)
Record Authorization : Set := mkAuthorization {
  Authorization_scheme : option string;
  Authorization_parameters : list (string * string)
}.

Definition Authorization_new : Authorization := mkAuthorization None [].

Definition setScheme (h : Authorization) (s : string) : Authorization :=
  mkAuthorization (Some s) (Authorization_parameters h).

Definition setParameter (h : Authorization) (nv : string * string)
  : Authorization :=
  mkAuthorization (Authorization_scheme h) (Authorization_parameters h ++ [nv]).

Definition notQuote (c : ascii) : bool := negb (Ascii.eqb c DQUOTE).

(** Modelled from the spec: a quoted string is scanned from the opening
    quote at the cursor to the next quote; its value is the text between
    them.  Input that ends first is PrematureEndOfInput. *)
Definition quotedString : L string :=
  match_ (Char DQUOTE) >>
  fun lx =>
    let body := run notQuote (rest lx) in
    match after notQuote (rest lx) with
    | _ :: _ => (Returns (str body), consume (length body + 1) lx)
    | [] => (Throws (PrematureEndOfInput (length (buffer lx))), lx)
    end.

(** Modelled from the spec: auth-param = token '=' (token | quoted-string). *)
Definition authParam : L (string * string) :=
  match_ (Kind ID) >>
  let* token := getNextToken in
  let* name := getTokenValue token in
  match_ (Char EQUALS) >>
  let* la := lookAhead 0 in
  if isChar DQUOTE la then
    let* value := quotedString in
    ret (name, value)
  else
    fun lx =>
      match run isTokenChar (rest lx) with
      | [] => (Throws (MalformedAuthParam (ptr lx)), lx)
      | _ =>
          (match_ (Kind ID) >>
           let* token := getNextToken in
           let* value := getTokenValue token in
           ret (name, value)) lx
      end.

(** Modelled from the spec: loop while lookahead is a comma: consume it,
    optional whitespace, read the next auth-param, append. *)
Fixpoint authParamLoop (fuel : nat) (header : Authorization) : L Authorization :=
  match fuel with
  | O => diverge
  | S fuel' =>
      let* la := lookAhead 0 in
      if isChar COMMA la then
        match_ (Char COMMA) >>
        SPorHT >>
        let* nv := authParam in
        authParamLoop fuel' (setParameter header nv)
      else ret header
  end.

(** Modelled from the spec: [ChallengeParser.prototype.parse(header)],
    grammar auth-scheme SP auth-param *( ',' auth-param ): read the scheme
    token; then read one auth-param; then the comma loop. *)
Definition ChallengeParser_parse (header : Authorization) : L Authorization :=
  match_ (Kind ID) >>
  let* token := getNextToken in
  let* scheme := getTokenValue token in
  let header := setScheme header scheme in
  match_ (Char SP) >>
  let* nv := authParam in
  let header := setParameter header nv in
  fun lx => authParamLoop (S (length (buffer lx))) header lx.

(** [AuthorizationParser.prototype.parse] *)
Definition AuthorizationParser_parse : L Authorization :=
  headerName AUTHORIZATION >>
  let auth := Authorization_new in
  let* auth := ChallengeParser_parse auth in
  ret auth.

(** ** To *)

Section ToParser.

(** The [To] header object and the address-with-parameters sub-grammar
    [AddressParametersParser.prototype.parse], which fills it in.  Both
    belong to the address sub-parser, an external peer; the parser is
    embedded for every such sub-grammar. *)
Variable To : Type.
Variable To_new : To.
Variable AddressParametersParser_parse : To -> L To.

(** [ToParser.prototype.parse] *)
Definition ToParser_parse : L To :=
  headerName TO >>
  let to := To_new in
  let* to := AddressParametersParser_parse to in
  match_ (Char LF) >>
  ret to.

End ToParser.

(** ** Parser objects and the lexers they own or borrow *)

(** The values a constructor may be handed as [arguments[0]]. *)
Inductive JsValue : Set :=
| JsUndefined
| JsNull
| JsNumber (n : nat)
| JsString (s : string)
| JsObject (ref : nat).

Definition typeof (v : JsValue) : string :=
  match v with
  | JsUndefined => "undefined"
  | JsNull | JsObject _ => "object"
  | JsNumber _ => "number"
  | JsString _ => "string"
  end.

(** The lexer objects alive, by reference.  A parser holds a reference, so
    a lexer handed to a constructor is shared with the caller. *)
Abbreviation Store := (gmap nat Lexer).

Definition H (A : Type) : Type := M Store A.

(** A parser object: [this.classname] and [this.lexer], which stays
    undefined when the constructor took neither branch. *)
Record Parser : Set := mkParser {
  classname : string;
  lexer : option nat
}.

(** The object reference in a value of type object; [null] has none. *)
Definition refOf (v : JsValue) : option nat :=
  match v with
  | JsObject ref => Some ref
  | _ => None
  end.

Definition textOf (v : JsValue) : string :=
  match v with
  | JsString s => s
  | _ => EmptyString
  end.

(** A method call [ref.m(...)] on a lexer reference: a TypeError when
    there is no lexer behind it. *)
Definition call {A} (ref : option nat) (m : L A) : H A :=
  fun σ =>
    match ref with
    | Some l =>
        match σ !! l with
        | Some lx => let '(r, lx') := m lx in (r, <[l:=lx']> σ)
        | None => (Throws TypeError, σ)
        end
    | None => (Throws TypeError, σ)
    end.

(** [new Lexer(lexerName, text)]: a lexer object nothing else refers to. *)
Definition alloc (lx : Lexer) : H nat :=
  fun σ => let l := fresh (dom σ) in (Returns l, <[l:=lx]> σ).

(** [function SupportedParser()] *)
Definition SupportedParser_new (arg0 : JsValue) : H Parser :=
  let this := mkParser "SupportedParser" None in
  if String.eqb (typeof arg0) "object" then
    let lexer := refOf arg0 in
    let this := mkParser (classname this) lexer in
    call (lexer) (selectLexer "command_keywordLexer") >>
    ret this
  else if String.eqb (typeof arg0) "string" then
    let supported := textOf arg0 in
    let* l := alloc (Lexer_new "command_keywordLexer" supported) in
    ret (mkParser (classname this) (Some l))
  else ret this.

(** [function AuthorizationParser()] *)
Definition AuthorizationParser_new (arg0 : JsValue) : H Parser :=
  let this := mkParser "AuthorizationParser" None in
  if String.eqb (typeof arg0) "object" then
    let lexer := refOf arg0 in
    let this := mkParser (classname this) lexer in
    call (lexer) (selectLexer "command_keywordLexer") >>
    ret this
  else if String.eqb (typeof arg0) "string" then
    let authorization := textOf arg0 in
    let* l := alloc (Lexer_new "command_keywordLexer" authorization) in
    ret (mkParser (classname this) (Some l))
  else ret this.

(** [function ToParser()] *)
Definition ToParser_new (arg0 : JsValue) : H Parser :=
  let this := mkParser "ToParser" None in
  if String.eqb (typeof arg0) "object" then
    let lexer := refOf arg0 in
    let this := mkParser (classname this) lexer in
    call (lexer) (selectLexer "command_keywordLexer") >>
    ret this
  else if String.eqb (typeof arg0) "string" then
    let to := textOf arg0 in
    let* l := alloc (Lexer_new "command_keywordLexer" to) in
    ret (mkParser (classname this) (Some l))
  else ret this.

(** [parser.parse()] on a parser object: the method runs on the lexer the
    parser refers to. *)
Definition SupportedParser_parse_method (fresh : Supported) (this : Parser)
  : H SupportedList :=
  call (lexer this) (SupportedParser_parse fresh).

Definition AuthorizationParser_parse_method (this : Parser) : H Authorization :=
  call (lexer this) AuthorizationParser_parse.

Definition ToParser_parse_method {To} (To_new : To)
    (AddressParametersParser_parse : To -> L To) (this : Parser) : H To :=
  call (lexer this) (ToParser_parse To To_new AddressParametersParser_parse).

(** ** The grammars *)

Definition isWS (v : list ascii) : Prop := Forall (fun c => isSPorHT c = true) v.

Definition isTag (v : list ascii) : Prop :=
  v <> [] /\ Forall (fun c => isTokenChar c = true) v.

(** The comma continuation *( ',' option-tag ), with the linear whitespace
    the lexer skips around each tag; the second index lists the tags. *)
Inductive CommaTail : list ascii -> list string -> Prop :=
| CommaTail_nil : CommaTail [] []
| CommaTail_cons ws1 tag ws2 v tags :
    isWS ws1 -> isTag tag -> isWS ws2 -> CommaTail v tags ->
    CommaTail (COMMA :: ws1 ++ tag ++ ws2 ++ v) (str tag :: tags).

(** The value grammar of the spec, [ option-tag *( ',' option-tag ) ]. *)
Inductive OptionTagList : list ascii -> list string -> Prop :=
| OptionTagList_empty : OptionTagList [] []
| OptionTagList_tags ws1 tag ws2 v tags :
    isWS ws1 -> isTag tag -> isWS ws2 -> CommaTail v tags ->
    OptionTagList (ws1 ++ tag ++ ws2 ++ v) (str tag :: tags).

(** What the two nested loops read: any number of groups, each an
    option-tag with its comma continuation, one group directly after the
    other.  A group is a pair of its leading tag and its continuation. *)
Inductive TagGroups : list ascii -> list (string * list string) -> Prop :=
| TagGroups_nil : TagGroups [] []
| TagGroups_cons ws1 tag ws2 v tags w groups :
    isWS ws1 -> isTag tag -> isWS ws2 -> CommaTail v tags ->
    TagGroups w groups ->
    TagGroups (ws1 ++ tag ++ ws2 ++ v ++ w) ((str tag, tags) :: groups).

(** The [Supported] objects the loops build for a sequence of groups. *)
Definition groupElements (fresh : Supported) (g : string * list string)
  : SupportedList :=
  setOptionTag (setHeaderName fresh SupportedParser_SUPPORTED) (fst g)
  :: map (setOptionTag fresh) (snd g).

Definition elements (fresh : Supported) (groups : list (string * list string))
  : SupportedList :=
  flat_map (groupElements fresh) groups.

(** [lx'] is [lx] with the cursor moved over the text [v] and nothing else
    but the current match changed. *)
Definition advances (v : list ascii) (lx lx' : Lexer) : Prop :=
  buffer lx' = buffer lx /\
  currentLexerName lx' = currentLexerName lx /\
  ptr lx' = ptr lx + length v /\
  rest lx = v ++ rest lx'.

(** The text [l] is empty or starts with a character outside [p]. *)
Definition stopsAt (p : ascii -> bool) (l : list ascii) : Prop :=
  match l with
  | c :: _ => p c = false
  | [] => True
  end.



(** ** WebRTCommCall: configuration check and codec filter *)

(** [s.split(sep)] for a separator of one character: the pieces between
    the separators, an empty piece included; never an empty array. *)
Fixpoint split (sep : ascii) (s : string) : list string :=
  match s with
  | EmptyString => [EmptyString]
  | String c s' =>
      if Ascii.eqb c sep then EmptyString :: split sep s'
      else match split sep s' with
           | piece :: pieces => String c piece :: pieces
           | [] => [String c EmptyString]
           end
  end.

(** The character [c] does not occur in [s]. *)
Definition noChar (c : ascii) (s : string) : Prop :=
  Forall (fun x => x <> c) (chars s).

(** What a JavaScript exception of this part of the code is: one of the
    strings the code throws, or a TypeError of the runtime. *)
Inductive Thrown : Set :=
| ThrownString (message : string)
| ThrownTypeError.

(** The values a property of the configuration object may hold. *)
Inductive ConfigValue : Set :=
| ConfigUndefined
| ConfigNull
| ConfigBoolean (b : bool)
| ConfigString (s : string)
| ConfigObject.

Definition typeofConfig (v : ConfigValue) : string :=
  match v with
  | ConfigUndefined => "undefined"
  | ConfigNull | ConfigObject => "object"
  | ConfigBoolean _ => "boolean"
  | ConfigString _ => "string"
  end.

(** [v == undefined] *)
Definition equalsUndefined (v : ConfigValue) : bool :=
  match v with
  | ConfigUndefined | ConfigNull => true
  | _ => false
  end.

(** The value of [v] as a condition. *)
Definition truthy (v : ConfigValue) : bool :=
  match v with
  | ConfigUndefined | ConfigNull => false
  | ConfigBoolean b => b
  | ConfigString s => negb (String.eqb s "")
  | ConfigObject => true
  end.

(** The configuration object, by its own properties; a property it does
    not have reads as [undefined]. *)
Abbreviation Configuration := (gmap string ConfigValue).

Definition property (configuration : Configuration) (name : string)
  : ConfigValue :=
  default ConfigUndefined (configuration !! name).

(** [WebRTCommCall.prototype.checkConfiguration] *)
Definition checkConfiguration (configuration : Configuration) : bool :=
  let check := true in
  let check :=
    if equalsUndefined (property configuration "localMediaStream")
    then false else check in
  let check :=
    if equalsUndefined (property configuration "audioMediaFlag")
       || negb (String.eqb (typeofConfig (property configuration "audioMediaFlag"))
                           "boolean")
    then false else check in
  let check :=
    if equalsUndefined (property configuration "videoMediaFlag")
       || negb (String.eqb (typeofConfig (property configuration "videoMediaFlag"))
                           "boolean")
    then false else check in
  let check :=
    if equalsUndefined (property configuration "messageMediaFlag")
       || negb (String.eqb (typeofConfig (property configuration "messageMediaFlag"))
                           "boolean")
    then false else check in
  check.

(** The SDP objects the codec filter works on, by what their accessors
    read and write: [getType], [getFormats] and [setFormats] of the media
    field, [getName] and [getValue] of an attribute (no string when they
    hand back [null]), [getMedia], [getAttributes] and [setAttributes] of
    the media description. *)
Record MediaField : Set := mkMediaField {
  mediaType : string;
  mediaFormats : list string
}.

Record AttributeField : Set := mkAttributeField {
  attributeName : option string;
  attributeValue : option string
}.

Record MediaDescription : Set := mkMediaDescription {
  media : MediaField;
  attributes : list AttributeField
}.

(** What a property of a codec object may hold: nothing, a codec name, or
    the member of [Object.prototype] of a given name, which is what
    [this.codecNames[payloadType]] reads when the payload type happens to
    be the name of such a member. *)
Inductive CodecValue : Set :=
| CodecUndefined
| CodecName (name : string)
| CodecMember (key : string).

(** A codec object { payload type : codec name }, by its own properties. *)
Abbreviation Codecs := (gmap string CodecValue).

(** [WebRTCommCall.prototype.codecNames] *)
Definition codecNames : Codecs :=
  <["0"%string := CodecName "PCMU"]> (<["8"%string := CodecName "PCMA"]> ∅).

Section CodecFilter.

(** Each function below first checks the class of its arguments and
    throws a string when it is not the expected one; the embedding is on
    arguments of the expected classes, and leaves the [console] calls out.

    What the runtime decides is a parameter: [toUpperCase] of a string; the
    order in which [for ... in] visits the properties of an object, which
    are its own ones, [Object.prototype] having no enumerable member; which
    names are members of [Object.prototype], which of those swallow an
    assignment (an accessor such as [__proto__]), and whether such a
    member [==] a given string. *)
Variable toUpperCase : string -> string.
Variable forIn : Codecs -> list string.
Variable protoMember : string -> bool.
Variable protoSetter : string -> bool.
Variable memberEquals : string -> string -> bool.

(** [object[key]] *)
Definition getProperty (object : Codecs) (key : string) : CodecValue :=
  match object !! key with
  | Some v => v
  | None => if protoMember key then CodecMember key else CodecUndefined
  end.

(** [object[key] = value] *)
Definition setProperty (object : Codecs) (key : string) (value : CodecValue)
  : Codecs :=
  if protoSetter key then object else <[key:=value]> object.

(** One pass of a loop that assigns a property, or assigns nothing,
    depending on the element [x] it is at. *)
Definition assign {X : Type} (assignment : X -> option (string * CodecValue))
    (object : Codecs) (x : X) : Codecs :=
  match assignment x with
  | Some (key, value) => setProperty object key value
  | None => object
  end.

(** [value == filter], the filter being a string. *)
Definition equalsFilter (value : CodecValue) (filter : string) : bool :=
  match value with
  | CodecUndefined => false
  | CodecName name => String.eqb name filter
  | CodecMember key => memberEquals key filter
  end.

(** What is left of a property when the filters are applied to it. *)
Definition filtered (codecFilters : list string) (value : option CodecValue)
  : option CodecValue :=
  match value with
  | Some v => if existsb (equalsFilter v) codecFilters then Some v else None
  | None => None
  end.

(** [value != undefined] *)
Definition isDefined (value : CodecValue) : bool :=
  match value with
  | CodecUndefined => false
  | _ => true
  end.

Definition nameIs (name : string) (attributField : AttributeField) : bool :=
  match attributeName attributField with
  | Some n => String.eqb n name
  | None => false
  end.

(** The body of the second loop of
    [getOfferedCodecsInMediaDescription], for one attribute; [None] when
    the [try] block throws, which the [catch] only logs. *)
Definition rtpmapCodec (attributField : AttributeField)
  : option (string * CodecValue) :=
  match attributeValue attributField with
  | None => None
  | Some rtpmapValue =>
      match split " " rtpmapValue with
      | payloadType :: codecInfo :: _ =>
          match split "/" codecInfo with
          | codecName :: _ => Some (payloadType, CodecName (toUpperCase codecName))
          | [] => None
          end
      | _ => None
      end
  end.

(** [WebRTCommCall.prototype.getOfferedCodecsInMediaDescription], on a
    media description. *)
Definition getOfferedCodecsInMediaDescription
    (mediaDescription : MediaDescription) : Codecs :=
  let mediaFormats := mediaFormats (media mediaDescription) in
  let foundCodecs : Codecs := ∅ in
  let foundCodecs :=
    fold_left
      (fun foundCodecs payloadType =>
         setProperty foundCodecs payloadType
                     (getProperty codecNames payloadType))
      mediaFormats foundCodecs in
  let attributFields := attributes mediaDescription in
  fold_left
    (fun foundCodecs attributField =>
       if nameIs "rtpmap" attributField then
         match rtpmapCodec attributField with
         | Some (payloadType, codecName) =>
             setProperty foundCodecs payloadType codecName
         | None => foundCodecs
         end
       else foundCodecs)
    attributFields foundCodecs.

(** [WebRTCommCall.prototype.applyCodecFiltersOnOfferedCodecs], on a
    codec object and an array of strings: what the object has become. *)
Definition applyCodecFiltersOnOfferedCodecs
    (foundCodecs : Codecs) (codecFilters : list string) : Codecs :=
  fold_left
    (fun foundCodecs offeredMediaCodecPayloadType =>
       let filteredFlag :=
         existsb (equalsFilter
                    (getProperty foundCodecs offeredMediaCodecPayloadType))
                 codecFilters in
       if negb filteredFlag
       then delete offeredMediaCodecPayloadType foundCodecs
       else foundCodecs)
    (forIn foundCodecs) foundCodecs.

(** The first loop of [updateMediaDescription]: for each filter in turn,
    the first payload type of that codec, if there is one. *)
Definition newFormatList (filteredCodecs : Codecs) (codecFilters : list string)
  : list string :=
  fold_left
    (fun newFormatListArray filter =>
       match find (fun offeredCodecPayloadType =>
                     equalsFilter
                       (getProperty filteredCodecs offeredCodecPayloadType)
                       filter)
                  (forIn filteredCodecs) with
       | Some offeredCodecPayloadType =>
           newFormatListArray ++ [offeredCodecPayloadType]
       | None => newFormatListArray
       end)
    codecFilters [].

(** The second loop of [updateMediaDescription], for one attribute:
    whether it is pushed. *)
Definition keepsAttribute (filteredCodecs : Codecs)
    (attributField : AttributeField) : bool :=
  if nameIs "rtpmap" attributField || nameIs "fmtp" attributField then
    match attributeValue attributField with
    | None => false
    | Some rtpmapValue =>
        match split " " rtpmapValue with
        | payloadType :: _ => isDefined (getProperty filteredCodecs payloadType)
        | [] => false
        end
    end
  else true.

(** [WebRTCommCall.prototype.updateMediaDescription], on a media
    description, a codec object and an array of strings: what the media
    description has become. *)
Definition updateMediaDescription (mediaDescription : MediaDescription)
    (filteredCodecs : Codecs) (codecFilters : list string)
  : MediaDescription :=
  let newFormatListArray := newFormatList filteredCodecs codecFilters in
  let mediaField :=
    mkMediaField (mediaType (media mediaDescription)) newFormatListArray in
  let newAttributeFieldArray :=
    List.filter (keepsAttribute filteredCodecs) (attributes mediaDescription) in
  mkMediaDescription mediaField newAttributeFieldArray.

(** One pass of the loop of
    [applyConfiguredCodecFilterOnSessionDescription]: the media
    description afterwards, or the TypeError of [split] on a filter that is
    no string. *)
Definition filterMediaDescription (configuration : Configuration)
    (mediaDescription : MediaDescription) : MediaDescription + Thrown :=
  let mediaType := mediaType (media mediaDescription) in
  let filterWith (codecsFilter : ConfigValue) :=
    match codecsFilter with
    | ConfigString codecsFilter =>
        let offeredCodecs := getOfferedCodecsInMediaDescription mediaDescription in
        let splitCodecsFilters := split "," codecsFilter in
        let offeredCodecs :=
          applyCodecFiltersOnOfferedCodecs offeredCodecs splitCodecsFilters in
        inl (updateMediaDescription mediaDescription offeredCodecs
                                    splitCodecsFilters)
    | _ => inr ThrownTypeError
    end in
  if String.eqb mediaType "audio"
     && truthy (property configuration "audioCodecsFilter") then
    filterWith (property configuration "audioCodecsFilter")
  else if String.eqb mediaType "video"
          && truthy (property configuration "videoCodecsFilter") then
    filterWith (property configuration "videoCodecsFilter")
  else inl mediaDescription.

(** [WebRTCommCall.prototype.applyConfiguredCodecFilterOnSessionDescription],
    on the media descriptions of a session description: what they have
    become, and the exception thrown, if any.  The media descriptions
    before the one that throws have been updated by then. *)
Fixpoint applyConfiguredCodecFilterOnSessionDescription
    (configuration : Configuration) (mediaDescriptions : list MediaDescription)
  : list MediaDescription * option Thrown :=
  match mediaDescriptions with
  | [] => ([], None)
  | mediaDescription :: mediaDescriptions' =>
      match filterMediaDescription configuration mediaDescription with
      | inl mediaDescription' =>
          let '(others, thrown) :=
            applyConfiguredCodecFilterOnSessionDescription
              configuration mediaDescriptions' in
          (mediaDescription' :: others, thrown)
      | inr exception => (mediaDescription :: mediaDescriptions', Some exception)
      end
  end.

End CodecFilter.

(** A runtime to run the codec filter on: upper-casing of ASCII letters,
    own properties visited in the order of the map, [constructor] and
    [__proto__] for members of [Object.prototype] with [__proto__] the
    accessor, and no such member equal to a string. *)
Definition asciiUpperCase (s : string) : string :=
  str (map toUpperChar (chars s)).

Definition ownKeys (object : Codecs) : list string := (map_to_list object).*1.

Definition exampleMember (key : string) : bool :=
  String.eqb key "constructor" || String.eqb key "__proto__".

Definition exampleSetter (key : string) : bool := String.eqb key "__proto__".

Definition exampleEquals (key filter : string) : bool := false.

(** An audio media description as a browser offers it, and a
    configuration that filters its codecs. *)
Definition exampleAudio : MediaDescription :=
  let attribute name value := mkAttributeField (Some name) (Some value) in
  mkMediaDescription
    (mkMediaField "audio" ["111"; "103"; "0"; "8"; "126"]%string)
    [attribute "rtpmap" "111 opus/48000/2";
     attribute "fmtp" "111 minptime=10";
     attribute "rtpmap" "103 ISAC/16000";
     attribute "rtpmap" "0 PCMU/8000";
     attribute "rtpmap" "8 PCMA/8000";
     attribute "rtpmap" "126 telephone-event/8000";
     mkAttributeField (Some "sendrecv") None]%string.

Definition exampleConfiguration : Configuration :=
  <["audioCodecsFilter"%string := ConfigString "PCMA,OPUS"]>
    (<["audioMediaFlag"%string := ConfigBoolean true]>
       (<["videoMediaFlag"%string := ConfigBoolean false]> ∅)).

(** [lx'] differs from [lx] at most by a cursor that has moved forward,
    within the buffer if it was within it, and by the current match. *)
Definition keeps (lx lx' : Lexer) : Prop :=
  buffer lx' = buffer lx /\
  currentLexerName lx' = currentLexerName lx /\
  ptr lx <= ptr lx' /\
  (ptr lx <= length (buffer lx) -> ptr lx' <= length (buffer lx)).

(** A lexer computation that only ever does that, however it ends. *)
Definition forwardOnly {A} (m : L A) : Prop :=
  forall lx r lx', m lx = (r, lx') -> keeps lx lx'.

(** * Properties *)

(** ** Character runs *)

Lemma run_after p l : run p l ++ after p l = l.
Proof.
  induction l as [|c l IH]; simpl; [reflexivity|].
  destruct (p c); simpl; [now rewrite IH | reflexivity].
Qed.

Lemma run_Forall p l : Forall (fun c => p c = true) (run p l).
Proof.
  induction l as [|c l IH]; simpl; [constructor|].
  destruct (p c) eqn:E; constructor; assumption.
Qed.

Lemma after_stopsAt p l : stopsAt p (after p l).
Proof.
  induction l as [|c l IH]; simpl; [exact I|].
  destruct (p c) eqn:E; simpl; assumption.
Qed.

Lemma run_length p l : length (run p l) <= length l.
Proof.
  induction l as [|c l IH]; simpl; [lia|].
  destruct (p c); simpl; lia.
Qed.


Lemma after_app p v l :
  Forall (fun c => p c = true) v -> stopsAt p l -> after p (v ++ l) = l.
Proof.
  induction 1 as [|c v Hc _ IH]; simpl; intros Hl.
  - destruct l as [|c l]; simpl in *; [reflexivity | now rewrite Hl].
  - rewrite Hc, IH by assumption. reflexivity.
Qed.

Lemma token_not_space c : isTokenChar c = true -> isSPorHT c = false.
Proof.
  destruct c as [[] [] [] [] [] [] [] []]; vm_compute; congruence.
Qed.

(** ** The monad *)

Lemma bind_Returns {S A B} (m : M S A) (k : A -> M S B) s b s' :
  bind m k s = (Returns b, s') ->
  exists a s1, m s = (Returns a, s1) /\ k a s1 = (Returns b, s').
Proof.
  unfold bind. destruct (m s) as [[a| |] s1]; intros E; try discriminate.
  eauto.
Qed.

Lemma bind_Diverges {S A B} (m : M S A) (k : A -> M S B) s s' :
  bind m k s = (Diverges, s') ->
  m s = (Diverges, s') \/
  exists a s1, m s = (Returns a, s1) /\ k a s1 = (Diverges, s').
Proof.
  unfold bind. destruct (m s) as [[a| |] s1]; intros E; try discriminate.
  - eauto.
  - left. congruence.
Qed.

(** ** Lexer primitives *)

Lemma advances_refl lx : advances [] lx lx.
Proof. unfold advances. simpl. repeat split; lia. Qed.

Lemma advances_trans v w a b c :
  advances v a b -> advances w b c -> advances (v ++ w) a c.
Proof.
  unfold advances. intros (B1 & N1 & P1 & R1) (B2 & N2 & P2 & R2).
  rewrite length_app, <- app_assoc. repeat split; try congruence; lia.
Qed.

Lemma advances_length v lx lx' :
  advances v lx lx' -> length (rest lx) = length v + length (rest lx').
Proof. intros (_ & _ & _ & R). rewrite R, length_app. reflexivity. Qed.

Lemma rest_consume n lx : rest (consume n lx) = drop n (rest lx).
Proof. unfold rest, consume. simpl. now rewrite drop_drop. Qed.

Lemma consume_advances n lx :
  n <= length (rest lx) -> advances (take n (rest lx)) lx (consume n lx).
Proof.
  intros Hn. unfold advances. rewrite rest_consume, take_drop, length_take.
  simpl. repeat split; lia.
Qed.

Lemma consume_run p lx :
  advances (run p (rest lx)) lx (consume (length (run p (rest lx))) lx) /\
  rest (consume (length (run p (rest lx))) lx) = after p (rest lx).
Proof.
  pose proof (run_after p (rest lx)) as E.
  assert (T : take (length (run p (rest lx))) (rest lx) = run p (rest lx)).
  { rewrite <- E at 2. now rewrite take_app_length. }
  split.
  - rewrite <- T at 1. apply consume_advances, run_length.
  - rewrite rest_consume. rewrite <- E at 2. now rewrite drop_app_length.
Qed.

Lemma lookAhead_0 lx : lookAhead 0 lx = (Returns (head (rest lx)), lx).
Proof.
  unfold lookAhead, rest. rewrite Nat.add_0_r, head_lookup, lookup_drop.
  now rewrite Nat.add_0_r.
Qed.

Lemma advances_same v lx lx1 lx2 :
  advances v lx lx1 ->
  buffer lx2 = buffer lx1 -> ptr lx2 = ptr lx1 ->
  currentLexerName lx2 = currentLexerName lx1 ->
  advances v lx lx2.
Proof.
  unfold advances, rest. intros (B & N & P & R) EB EP EN.
  rewrite EB, EP, EN. auto.
Qed.

Lemma SPorHT_Returns lx u lx' :
  SPorHT lx = (Returns u, lx') ->
  exists ws, isWS ws /\ advances ws lx lx' /\
             stopsAt isSPorHT (rest lx') /\
             currentMatch lx' = currentMatch lx.
Proof.
  unfold SPorHT. intros E. injection E as _ <-.
  destruct (consume_run isSPorHT lx) as [A R].
  exists (run isSPorHT (rest lx)).
  split; [apply run_Forall|]. split; [exact A|].
  split; [rewrite R; apply after_stopsAt | reflexivity].
Qed.

Lemma match_Kind_Returns k lx u lx' :
  match_ (Kind k) lx = (Returns u, lx') ->
  exists tag, isTag tag /\ advances tag lx lx' /\
              stopsAt isTokenChar (rest lx') /\
              currentMatch lx' = Some (mkToken k (str tag) (ptr lx)).
Proof.
  unfold match_. destruct (consume_run isTokenChar lx) as [A R].
  destruct (run isTokenChar (rest lx)) as [|c tag] eqn:E; [discriminate|].
  match goal with |- context [if ?b then _ else _] => destruct b end;
    [|discriminate].
  intros H. injection H as _ <-.
  exists (c :: tag).
  split; [split; [discriminate | rewrite <- E; apply run_Forall]|].
  split; [eapply advances_same; [exact A|reflexivity..]|].
  split; [|reflexivity].
  change (stopsAt isTokenChar (rest (consume (length (c :: tag)) lx))).
  rewrite R. apply after_stopsAt.
Qed.

Lemma match_Char_Returns c lx u lx' :
  match_ (Char c) lx = (Returns u, lx') ->
  advances [c] lx lx' /\ currentMatch lx' = currentMatch lx.
Proof.
  unfold match_. destruct (buffer lx !! ptr lx) as [c'|] eqn:E; [|discriminate].
  destruct (Ascii.eqb c' c) eqn:Ec; [|discriminate].
  apply Ascii.eqb_eq in Ec. subst c'. intros H. injection H as _ <-.
  split; [|reflexivity].
  assert (T : take 1 (rest lx) = [c]).
  { unfold rest. now rewrite (drop_S _ _ _ E). }
  rewrite <- T. apply consume_advances.
  unfold rest. rewrite (drop_S _ _ _ E). simpl. lia.
Qed.

Lemma match_Throws expected lx e lx' :
  match_ expected lx = (Throws e, lx') -> lx' = lx.
Proof.
  unfold match_. destruct expected as [k|c].
  - match goal with |- context [if ?b then _ else _] => destruct b end;
      intros H; inversion H; reflexivity.
  - destruct (buffer lx !! ptr lx) as [c'|]; [destruct (Ascii.eqb c' c)|];
      intros H; inversion H; reflexivity.
Qed.

Lemma match_not_Diverges expected lx lx' :
  match_ expected lx <> (Diverges, lx').
Proof.
  unfold match_. destruct expected as [k|c].
  - match goal with |- context [if ?b then _ else _] => destruct b end;
      discriminate.
  - destruct (buffer lx !! ptr lx) as [c'|]; [destruct (Ascii.eqb c' c)|];
      discriminate.
Qed.

Lemma getNextToken_Returns lx t lx' :
  getNextToken lx = (Returns t, lx') -> t = currentMatch lx /\ lx' = lx.
Proof. unfold getNextToken. intros H. inversion H. auto. Qed.

Lemma getTokenValue_Returns (t : option Token) (lx : Lexer) v lx' :
  getTokenValue t lx = (Returns v, lx') ->
  exists tok, t = Some tok /\ v = tokenValue tok /\ lx' = lx.
Proof.
  destruct t as [tok|]; unfold getTokenValue, ret, throw; intros H;
    inversion H. eauto.
Qed.

(** Reading one identifier: [match(ID)], [getNextToken()],
    [getTokenValue()] in a row. *)
Lemma readId_Returns {A} (k : string -> L A) lx a lx' :
  (match_ (Kind ID) >>
   let* token := getNextToken in
   let* tag := getTokenValue token in
   k tag) lx = (Returns a, lx') ->
  exists tag lx1, isTag tag /\ advances tag lx lx1 /\
                  k (str tag) lx1 = (Returns a, lx').
Proof.
  intros H.
  apply bind_Returns in H as (u & lx1 & Hm & H).
  apply bind_Returns in H as (t & lx2 & Hg & H).
  apply bind_Returns in H as (v & lx3 & Hv & H).
  apply match_Kind_Returns in Hm as (tag & Ht & Ha & _ & Hc).
  apply getNextToken_Returns in Hg as [-> ->].
  apply getTokenValue_Returns in Hv as (tok & Et & -> & ->).
  rewrite Hc in Et. injection Et as <-. simpl in H. eauto.
Qed.

(** ** What the loops of SupportedParser read and build *)

Section SupportedParserLoops.

Variable fresh : Supported.

Lemma commaBody_Returns acc lx acc' lx' :
  commaBody fresh acc lx = (Returns acc', lx') ->
  exists ws1 tag ws2,
    isWS ws1 /\ isTag tag /\ isWS ws2 /\
    advances (COMMA :: ws1 ++ tag ++ ws2) lx lx' /\
    acc' = acc ++ [setOptionTag fresh (str tag)].
Proof.
  unfold commaBody. intros H.
  apply bind_Returns in H as (u1 & lx1 & Hc & H).
  apply bind_Returns in H as (u2 & lx2 & Hs & H).
  apply readId_Returns in H as (tag & lx3 & Ht & A3 & H).
  apply bind_Returns in H as (u4 & lx4 & Hs' & H).
  apply match_Char_Returns in Hc as [A1 _].
  apply SPorHT_Returns in Hs as (ws1 & W1 & A2 & _).
  apply SPorHT_Returns in Hs' as (ws2 & W2 & A4 & _).
  unfold ret in H. injection H as <- <-.
  exists ws1, tag, ws2. repeat (split; [assumption|]).
  split; [|reflexivity].
  exact (advances_trans _ _ _ _ _ A1
           (advances_trans _ _ _ _ _ A2 (advances_trans _ _ _ _ _ A3 A4))).
Qed.

Lemma commaLoop_Returns fuel : forall acc lx l lx',
  commaLoop fresh fuel acc lx = (Returns l, lx') ->
  exists v tags,
    CommaTail v tags /\ advances v lx lx' /\
    l = acc ++ map (setOptionTag fresh) tags /\
    isChar COMMA (head (rest lx')) = false.
Proof.
  induction fuel as [|fuel IH]; intros acc lx l lx' H; [discriminate|].
  simpl in H. unfold bind at 1 in H. rewrite lookAhead_0 in H.
  destruct (isChar COMMA (head (rest lx))) eqn:E.
  - apply bind_Returns in H as (acc1 & lx1 & Hb & H).
    apply commaBody_Returns in Hb as (ws1 & tag & ws2 & W1 & T & W2 & A & ->).
    apply IH in H as (v & tags & C & A' & -> & Hstop).
    exists ((COMMA :: ws1 ++ tag ++ ws2) ++ v), (str tag :: tags).
    split; [|split; [|split]].
    + simpl. rewrite <- !app_assoc. now constructor.
    + eapply advances_trans; eassumption.
    + now rewrite <- app_assoc.
    + assumption.
  - unfold ret in H. injection H as <- <-.
    exists [], []. split; [constructor|]. split; [apply advances_refl|].
    split; [now rewrite app_nil_r | assumption].
Qed.

Lemma tagBody_Returns fuel acc lx l lx' :
  tagBody fresh fuel acc lx = (Returns l, lx') ->
  exists ws1 tag ws2 v tags,
    isWS ws1 /\ isTag tag /\ isWS ws2 /\ CommaTail v tags /\
    advances (ws1 ++ tag ++ ws2 ++ v) lx lx' /\
    l = acc ++ groupElements fresh (str tag, tags) /\
    isChar COMMA (head (rest lx')) = false.
Proof.
  unfold tagBody. intros H.
  apply bind_Returns in H as (u1 & lx1 & Hs & H).
  apply readId_Returns in H as (tag & lx2 & Ht & A2 & H).
  apply bind_Returns in H as (u3 & lx3 & Hs' & H).
  apply SPorHT_Returns in Hs as (ws1 & W1 & A1 & _).
  apply SPorHT_Returns in Hs' as (ws2 & W2 & A3 & _).
  apply commaLoop_Returns in H as (v & tags & C & A4 & -> & Hstop).
  exists ws1, tag, ws2, v, tags. repeat (split; [assumption|]).
  split; [|split]; [| |assumption].
  - exact (advances_trans _ _ _ _ _ A1
             (advances_trans _ _ _ _ _ A2 (advances_trans _ _ _ _ _ A3 A4))).
  - unfold SupportedList_add, groupElements. simpl.
    now rewrite <- app_assoc.
Qed.

Lemma tagLoop_Returns fuel : forall acc lx l lx',
  tagLoop fresh fuel acc lx = (Returns l, lx') ->
  exists v groups,
    TagGroups v groups /\ advances v lx lx' /\
    l = acc ++ elements fresh groups /\
    head (rest lx') = Some LF.
Proof.
  induction fuel as [|fuel IH]; intros acc lx l lx' H; [discriminate|].
  simpl in H. unfold bind at 1 in H. rewrite lookAhead_0 in H.
  destruct (isChar LF (head (rest lx))) eqn:E; simpl in H.
  - unfold ret in H. injection H as <- <-.
    exists [], []. split; [constructor|]. split; [apply advances_refl|].
    split; [now rewrite app_nil_r|].
    destruct (head (rest lx)) as [c|]; [|discriminate].
    simpl in E. apply Ascii.eqb_eq in E. now subst c.
  - apply bind_Returns in H as (acc1 & lx1 & Hb & H).
    apply tagBody_Returns in Hb
      as (ws1 & tag & ws2 & v & tags & W1 & T & W2 & C & A & -> & _).
    apply IH in H as (w & groups & G & A' & -> & Hnl).
    exists ((ws1 ++ tag ++ ws2 ++ v) ++ w), ((str tag, tags) :: groups).
    split; [|split; [|split]].
    + rewrite <- !app_assoc. now constructor.
    + eapply advances_trans; eassumption.
    + unfold elements. simpl. now rewrite <- app_assoc.
    + assumption.
Qed.

End SupportedParserLoops.

(** ** Termination of the loops *)

Lemma bind_ext_on {S A B} (m : M S A) (k1 k2 : A -> M S B) s :
  (forall a s1, m s = (Returns a, s1) -> k1 a s1 = k2 a s1) ->
  bind m k1 s = bind m k2 s.
Proof.
  intros E. unfold bind. destruct (m s) as [[a| |] s1]; auto.
Qed.

Lemma rest_length lx : length (rest lx) <= length (buffer lx).
Proof. unfold rest. rewrite length_drop. lia. Qed.

Lemma isTag_length tag : isTag tag -> 0 < length tag.
Proof. intros [N _]. destruct tag; [congruence | simpl; lia]. Qed.

Lemma readId_not_Diverges {A} (k : string -> L A) lx lx' :
  (match_ (Kind ID) >>
   let* token := getNextToken in
   let* tag := getTokenValue token in
   k tag) lx = (Diverges, lx') ->
  exists tag lx1, isTag tag /\ advances tag lx lx1 /\
                  k (str tag) lx1 = (Diverges, lx').
Proof.
  intros H.
  apply bind_Diverges in H as [H|(u & lx1 & Hm & H)];
    [now apply match_not_Diverges in H|].
  apply bind_Diverges in H as [H|(t & lx2 & Hg & H)]; [discriminate|].
  apply match_Kind_Returns in Hm as (tag & Ht & Ha & _ & Hc).
  apply getNextToken_Returns in Hg as [-> ->].
  rewrite Hc in H.
  apply bind_Diverges in H as [H|(v & lx3 & Hv & H)]; [discriminate|].
  injection Hv as <- <-. eauto.
Qed.

Section SupportedParserTermination.

Variable fresh : Supported.

Lemma commaBody_not_Diverges acc lx lx' :
  commaBody fresh acc lx <> (Diverges, lx').
Proof.
  unfold commaBody. intros H.
  apply bind_Diverges in H as [H|(u1 & lx1 & _ & H)];
    [now apply match_not_Diverges in H|].
  apply bind_Diverges in H as [H|(u2 & lx2 & _ & H)]; [discriminate|].
  apply readId_not_Diverges in H as (tag & lx3 & _ & _ & H).
  apply bind_Diverges in H as [H|(u4 & lx4 & _ & H)]; discriminate.
Qed.

(** A pass of the inner loop that returns has consumed input. *)
Lemma commaBody_progress acc lx acc' lx' :
  commaBody fresh acc lx = (Returns acc', lx') ->
  length (rest lx') < length (rest lx).
Proof.
  intros H.
  apply commaBody_Returns in H as (ws1 & tag & ws2 & _ & _ & _ & A & _).
  apply advances_length in A. simpl in A. lia.
Qed.

Lemma commaLoop_terminates fuel : forall acc lx lx',
  length (rest lx) < fuel ->
  commaLoop fresh fuel acc lx <> (Diverges, lx').
Proof.
  induction fuel as [|fuel IH]; intros acc lx lx' Hf H; [lia|].
  simpl in H. unfold bind at 1 in H. rewrite lookAhead_0 in H.
  destruct (isChar COMMA (head (rest lx))); [|discriminate].
  apply bind_Diverges in H as [H|(acc1 & lx1 & Hb & H)].
  - now apply commaBody_not_Diverges in H.
  - apply commaBody_progress in Hb. apply IH in H; [assumption | lia].
Qed.

Lemma commaLoop_fuel f1 : forall f2 acc lx,
  length (rest lx) < f1 -> length (rest lx) < f2 ->
  commaLoop fresh f1 acc lx = commaLoop fresh f2 acc lx.
Proof.
  induction f1 as [|f1 IH]; intros [|f2] acc lx H1 H2; try lia.
  simpl. apply bind_ext_on. intros la lx0 Hla.
  rewrite lookAhead_0 in Hla. injection Hla as <- <-.
  destruct (isChar COMMA (head (rest lx))); [|reflexivity].
  apply bind_ext_on. intros acc1 lx1 Hb.
  apply commaBody_progress in Hb. apply IH; lia.
Qed.

Lemma tagBody_not_Diverges fuel acc lx lx' :
  length (rest lx) <= fuel ->
  tagBody fresh fuel acc lx <> (Diverges, lx').
Proof.
  intros Hf H. unfold tagBody in H.
  apply bind_Diverges in H as [H|(u1 & lx1 & Hs & H)]; [discriminate|].
  apply readId_not_Diverges in H as (tag & lx2 & Ht & A2 & H).
  apply bind_Diverges in H as [H|(u3 & lx3 & Hs' & H)]; [discriminate|].
  apply SPorHT_Returns in Hs as (ws1 & _ & A1 & _).
  apply SPorHT_Returns in Hs' as (ws2 & _ & A3 & _).
  apply advances_length in A1, A2, A3. apply isTag_length in Ht.
  apply commaLoop_terminates in H; [assumption | lia].
Qed.

Lemma tagBody_progress fuel acc lx acc' lx' :
  tagBody fresh fuel acc lx = (Returns acc', lx') ->
  length (rest lx') < length (rest lx).
Proof.
  intros H.
  apply tagBody_Returns in H
    as (ws1 & tag & ws2 & v & tags & _ & T & _ & _ & A & _).
  apply advances_length in A. apply isTag_length in T.
  rewrite !length_app in A. lia.
Qed.

Lemma tagBody_fuel f1 f2 acc lx :
  length (rest lx) <= f1 -> length (rest lx) <= f2 ->
  tagBody fresh f1 acc lx = tagBody fresh f2 acc lx.
Proof.
  intros H1 H2. unfold tagBody.
  apply bind_ext_on. intros u1 lx1 Hs.
  apply bind_ext_on. intros u2 lx2 Hm.
  apply bind_ext_on. intros t lx3 Hg.
  apply bind_ext_on. intros tag lx4 Hv.
  apply bind_ext_on. intros u5 lx5 Hs'.
  apply SPorHT_Returns in Hs as (ws1 & _ & A1 & _).
  apply match_Kind_Returns in Hm as (id & Ht & A2 & _).
  apply getNextToken_Returns in Hg as [_ ->].
  apply getTokenValue_Returns in Hv as (tok & _ & _ & ->).
  apply SPorHT_Returns in Hs' as (ws2 & _ & A3 & _).
  apply advances_length in A1, A2, A3. apply isTag_length in Ht.
  apply commaLoop_fuel; lia.
Qed.

Lemma tagLoop_terminates fuel : forall acc lx lx',
  length (rest lx) < fuel ->
  tagLoop fresh fuel acc lx <> (Diverges, lx').
Proof.
  induction fuel as [|fuel IH]; intros acc lx lx' Hf H; [lia|].
  simpl in H. unfold bind at 1 in H. rewrite lookAhead_0 in H.
  destruct (negb (isChar LF (head (rest lx)))); [|discriminate].
  apply bind_Diverges in H as [H|(acc1 & lx1 & Hb & H)].
  - apply tagBody_not_Diverges in H; [assumption | lia].
  - apply tagBody_progress in Hb. apply IH in H; [assumption | lia].
Qed.

Lemma tagLoop_S fuel acc :
  tagLoop fresh (S fuel) acc =
  (let* la := lookAhead 0 in
   if negb (isChar LF la) then
     let* acc' := tagBody fresh fuel acc in tagLoop fresh fuel acc'
   else ret acc).
Proof. reflexivity. Qed.

Lemma tagLoop_fuel f1 : forall f2 acc lx,
  length (rest lx) < f1 -> length (rest lx) < f2 ->
  tagLoop fresh f1 acc lx = tagLoop fresh f2 acc lx.
Proof.
  induction f1 as [|f1 IH]; intros [|f2] acc lx H1 H2; try lia.
  rewrite !tagLoop_S. apply bind_ext_on. intros la lx0 Hla.
  rewrite lookAhead_0 in Hla. injection Hla as <- <-.
  destruct (negb (isChar LF (head (rest lx)))); [|reflexivity].
  unfold bind. rewrite (tagBody_fuel f1 f2 acc lx) by lia.
  destruct (tagBody fresh f2 acc lx) as [[acc1| |] lx1] eqn:Hb;
    try reflexivity.
  apply tagBody_progress in Hb. apply IH; lia.
Qed.

End SupportedParserTermination.

(** ** headerName *)

Lemma headerName_Returns tok lx u lx' :
  headerName tok lx = (Returns u, lx') ->
  exists name ws, isTag name /\ isWS ws /\
                  advances (name ++ COLON :: ws) lx lx'.
Proof.
  unfold headerName.
  destruct ((match_ (Kind tok) >> match_ (Char COLON)) lx)
    as [[u0| |] lx2] eqn:E; try discriminate.
  intros Hs.
  apply bind_Returns in E as (u1 & lx1 & Hm & Hc).
  apply match_Kind_Returns in Hm as (name & Ht & A1 & _).
  apply match_Char_Returns in Hc as [A2 _].
  apply SPorHT_Returns in Hs as (ws & W & A3 & _).
  exists name, ws. repeat (split; [assumption|]).
  exact (advances_trans _ _ _ _ _ A1 (advances_trans _ _ _ _ _ A2 A3)).
Qed.

Lemma headerName_not_Diverges tok lx lx' :
  headerName tok lx <> (Diverges, lx').
Proof.
  unfold headerName.
  destruct ((match_ (Kind tok) >> match_ (Char COLON)) lx)
    as [[u0| |] lx2] eqn:E; try discriminate.
  apply bind_Diverges in E as [E|(u1 & lx1 & _ & E)];
    now apply match_not_Diverges in E.
Qed.

(** The header name is compared through its upper-case spelling. *)
Lemma match_keyword_mismatch tok keyword lx :
  tok <> ID ->
  (forall name, assoc name (keywordTable "command_keywordLexer") = Some tok ->
                name = keyword) ->
  str (map toUpperChar (run isTokenChar (rest lx))) <> keyword ->
  match_ (Kind tok) lx = (Throws (UnexpectedToken tok (lexemeAt lx) (ptr lx)), lx).
Proof.
  intros Hid Hkey Hne. unfold match_.
  destruct (run isTokenChar (rest lx)) as [|c name]; [reflexivity|].
  assert (E : match assoc (str (map toUpperChar (c :: name)))
                          (keywordTable (currentLexerName lx)) with
              | Some k' => TokenTypes_eqb k' tok
              | None => false
              end = false).
  { unfold keywordTable at 1.
    destruct (String.eqb (currentLexerName lx) "command_keywordLexer");
      [|reflexivity].
    destruct (assoc _ _) as [k'|] eqn:Ea; [|reflexivity].
    destruct (TokenTypes_eqb k' tok) eqn:Ek; [|reflexivity].
    assert (k' = tok) by (destruct k', tok; simpl in Ek; congruence).
    subst k'. apply Hkey in Ea. contradiction. }
  destruct tok; try contradiction; rewrite E; reflexivity.
Qed.

Lemma headerName_mismatch tok keyword lx :
  tok <> ID ->
  (forall name, assoc name (keywordTable "command_keywordLexer") = Some tok ->
                name = keyword) ->
  str (map toUpperChar (run isTokenChar (rest lx))) <> keyword ->
  headerName tok lx = (Throws (HeaderNameMismatch tok (lexemeAt lx) (ptr lx)), lx).
Proof.
  intros Hid Hkey Hne. unfold headerName, bind.
  now rewrite (match_keyword_mismatch tok keyword lx Hid Hkey Hne).
Qed.

Lemma keyword_of name tok :
  assoc name (keywordTable "command_keywordLexer") = Some tok ->
  match tok with
  | TO => name = "TO"%string
  | AUTHORIZATION => name = "AUTHORIZATION"%string
  | SUPPORTED => name = "SUPPORTED"%string
  | ID => False
  end.
Proof.
  unfold keywordTable. simpl.
  repeat match goal with
  | |- context [String.eqb ?a ?b] =>
      let E := fresh in destruct (String.eqb a b) eqn:E;
      [apply String.eqb_eq in E|]
  end; intros H; inversion H; subst; auto.
Qed.

(** ** SupportedParser.parse as a whole *)

Section SupportedParserParse.

Variable fresh : Supported.

Lemma SupportedParser_parse_Returns lx l lx' :
  SupportedParser_parse fresh lx = (Returns l, lx') ->
  exists lx1 v groups,
    headerName SUPPORTED lx = (Returns tt, lx1) /\
    TagGroups v groups /\ advances v lx1 lx' /\
    l = elements fresh groups /\
    head (rest lx') = Some LF.
Proof.
  unfold SupportedParser_parse, SupportedParser_parse_bounded. intros H.
  apply bind_Returns in H as ([] & lx1 & Hh & H).
  apply tagLoop_Returns in H as (v & groups & G & A & -> & Hnl).
  exists lx1, v, groups. auto.
Qed.

Lemma headerName_rest tok lx u lx1 :
  headerName tok lx = (Returns u, lx1) ->
  length (rest lx1) < length (rest lx).
Proof.
  intros H. apply headerName_Returns in H as (name & ws & _ & _ & A).
  apply advances_length in A. rewrite length_app in A. simpl in A. lia.
Qed.

Lemma SupportedParser_parse_not_Diverges lx lx' :
  SupportedParser_parse fresh lx <> (Diverges, lx').
Proof.
  unfold SupportedParser_parse, SupportedParser_parse_bounded. intros H.
  apply bind_Diverges in H as [H|(u & lx1 & Hh & H)].
  - now apply headerName_not_Diverges in H.
  - apply headerName_rest in Hh. pose proof (rest_length lx).
    apply tagLoop_terminates in H; [assumption | lia].
Qed.

Lemma SupportedParser_parse_fuel fuel lx :
  length (buffer lx) < fuel ->
  SupportedParser_parse_bounded fresh fuel lx = SupportedParser_parse fresh lx.
Proof.
  intros Hf. unfold SupportedParser_parse, SupportedParser_parse_bounded.
  apply bind_ext_on. intros u lx1 Hh.
  apply headerName_rest in Hh. pose proof (rest_length lx).
  apply tagLoop_fuel; lia.
Qed.

End SupportedParserParse.

(** ** The shape of conforming text *)

Lemma space_not_token c : isSPorHT c = true -> isTokenChar c = false.
Proof.
  destruct c as [[] [] [] [] [] [] [] []]; vm_compute; congruence.
Qed.

Lemma stopsAt_tag p tag l :
  isTag tag -> (forall c, isTokenChar c = true -> p c = false) ->
  stopsAt p (tag ++ l).
Proof.
  intros [N F] Hp. destruct tag as [|c tag]; [congruence|].
  simpl. apply Hp. now inversion F.
Qed.

(** After a comma continuation and the header's newline comes a comma or
    that newline. *)
Lemma CommaTail_next p v tags w :
  CommaTail v tags -> p COMMA = false -> p LF = false ->
  stopsAt p (v ++ LF :: w) /\
  (head (v ++ LF :: w) = Some COMMA \/ head (v ++ LF :: w) = Some LF).
Proof.
  intros C Hc Hl. destruct C; simpl; auto.
Qed.

Lemma stopsAt_space_then p ws l :
  isWS ws -> (forall c, isSPorHT c = true -> p c = false) ->
  stopsAt p l -> stopsAt p (ws ++ l).
Proof.
  intros W Hp Hl. destruct W as [|c ws Hc _]; simpl; auto.
Qed.

(** In text that conforms to the spec's grammar, what follows the first
    tag and its whitespace is a comma or the newline. *)
Lemma OptionTagList_next v tags w :
  OptionTagList v tags ->
  let r := after isSPorHT (after isTokenChar (after isSPorHT (v ++ LF :: w))) in
  head r = Some COMMA \/ head r = Some LF.
Proof.
  intros O. destruct O as [|ws1 tag ws2 v tags W1 T W2 C]; simpl.
  - now right.
  - rewrite <- !app_assoc.
    destruct (CommaTail_next isSPorHT v tags w C) as [S1 Hd];
      [reflexivity..|].
    destruct (CommaTail_next isTokenChar v tags w C) as [S2 _];
      [reflexivity..|].
    rewrite (after_app isSPorHT ws1) by
      (try assumption; apply stopsAt_tag; auto using token_not_space).
    rewrite (after_app isTokenChar tag) by
      (try apply T; apply stopsAt_space_then; auto using space_not_token).
    rewrite (after_app isSPorHT ws2) by assumption.
    exact Hd.
Qed.

(** Text read by the loops starts, after whitespace, with a tag or is
    empty. *)
Lemma TagGroups_first v groups w :
  TagGroups v groups ->
  exists c, head (after isSPorHT (v ++ LF :: w)) = Some c /\
            (isTokenChar c = true \/ c = LF).
Proof.
  intros G. destruct G as [|ws1 tag ws2 v tags w0 groups W1 T W2 C G]; simpl.
  - eauto.
  - rewrite <- !app_assoc.
    rewrite (after_app isSPorHT ws1) by
      (try assumption; apply stopsAt_tag; auto using token_not_space).
    destruct T as [N F]. destruct tag as [|c tag]; [congruence|].
    exists c. split; [reflexivity|]. left. now inversion F.
Qed.

(** * The claims *)

(** C1 as stated fails: the value portion of
    [Supported: 100rel timer] + newline is not an option-tag list of the
    spec's grammar (no comma separates the two tags), yet
    [SupportedParser.parse] returns the list of both tags. *)
Lemma SupportedParser_accepts_tags_without_comma :
  exists lx1 lx',
    headerName SUPPORTED (commandLexer ("Supported: 100rel timer" +:+ nl))
      = (Returns tt, lx1) /\
    (forall v tags w, rest lx1 = v ++ LF :: w -> ~ OptionTagList v tags) /\
    SupportedParser_parse noFields
      (commandLexer ("Supported: 100rel timer" +:+ nl))
      = (Returns [mkSupported (Some "Supported"%string) (Some "100rel"%string);
                  mkSupported (Some "Supported"%string) (Some "timer"%string)],
         lx').
Proof.
  eexists. eexists. split; [vm_compute; reflexivity|].
  split; [|vm_compute; reflexivity].
  intros v tags w Hr O.
  pose proof (OptionTagList_next v tags w O) as Hn.
  rewrite <- Hr in Hn. vm_compute in Hn.
  destruct Hn; discriminate.
Qed.

(** C1, amended: [SupportedParser.parse] throws, and returns no list, on
    every input that is not a Supported header name and colon followed, up
    to a newline, by a sequence of tag groups -- each group an option-tag
    with its comma continuation, a further group starting where the
    previous one ends (so tags may be separated by a comma or by
    whitespace alone). *)
Theorem SupportedParser_rejects_non_groups (fresh : Supported) (lx : Lexer) :
  ~ (exists lx1 v groups w,
       headerName SUPPORTED lx = (Returns tt, lx1) /\
       rest lx1 = v ++ LF :: w /\
       TagGroups v groups) ->
  exists e lx', SupportedParser_parse fresh lx = (Throws e, lx').
Proof.
  intros Hn.
  destruct (SupportedParser_parse fresh lx) as [[l|e|] lx'] eqn:E.
  - exfalso. apply Hn.
    apply SupportedParser_parse_Returns in E
      as (lx1 & v & groups & Hh & G & A & _ & Hnl).
    destruct A as (_ & _ & _ & R).
    destruct (rest lx') as [|c w]; [discriminate|].
    injection Hnl as ->.
    exists lx1, v, groups, w. auto.
  - eauto.
  - now apply SupportedParser_parse_not_Diverges in E.
Qed.

Lemma SupportedParser_rejects_non_groups_witness :
  ~ (exists lx1 v groups w,
       headerName SUPPORTED (commandLexer ("Supported: ,timer" +:+ nl))
         = (Returns tt, lx1) /\
       rest lx1 = v ++ LF :: w /\
       TagGroups v groups) /\
  exists e lx',
    SupportedParser_parse noFields (commandLexer ("Supported: ,timer" +:+ nl))
      = (Throws e, lx').
Proof.
  assert (Hn : ~ (exists lx1 v groups w,
       headerName SUPPORTED (commandLexer ("Supported: ,timer" +:+ nl))
         = (Returns tt, lx1) /\
       rest lx1 = v ++ LF :: w /\
       TagGroups v groups)).
  { intros (lx1 & v & groups & w & Hh & Hr & G).
    vm_compute in Hh. injection Hh as <-.
    destruct (TagGroups_first v groups w G) as (c & Hc & Ht).
    rewrite <- Hr in Hc. vm_compute in Hc. injection Hc as <-.
    destruct Ht as [Ht|Ht]; vm_compute in Ht; discriminate. }
  split; [exact Hn|].
  exact (SupportedParser_rejects_non_groups noFields _ Hn).
Defined.

(** C2 fails on the code for SupportedParser: on
    [Supported: 100rel] + newline the parse returns with the cursor at
    offset 17, which is the offset of the newline; the newline is still
    unread, the cursor is before it and not after it. *)
Theorem SupportedParser_leaves_newline_unread :
  exists l lx',
    parseSupported noFields ("Supported: 100rel" +:+ nl) = (Returns l, lx') /\
    ptr lx' = 17 /\
    buffer lx' !! 17 = Some LF /\
    length (buffer lx') = 18.
Proof. eexists. eexists. vm_compute. auto. Qed.

(** The same on every input: when [SupportedParser.parse] returns, the
    next unread character is the newline. *)
Lemma SupportedParser_parse_stops_at_newline fresh lx l lx' :
  SupportedParser_parse fresh lx = (Returns l, lx') ->
  lookAhead 0 lx' = (Returns (Some LF), lx').
Proof.
  intros H.
  apply SupportedParser_parse_Returns in H as (_ & _ & _ & _ & _ & _ & _ & Hnl).
  now rewrite lookAhead_0, Hnl.
Qed.

(** [ToParser.parse], by contrast, ends with [match('\n')]: when it
    returns, the last character consumed is the newline. *)
Lemma ToParser_parse_consumes_newline
    (To : Type) (To_new : To) (AddressParametersParser_parse : To -> L To)
    lx to lx' :
  ToParser_parse To To_new AddressParametersParser_parse lx = (Returns to, lx') ->
  exists lx2, advances [LF] lx2 lx'.
Proof.
  unfold ToParser_parse. intros H.
  apply bind_Returns in H as (u & lx1 & _ & H).
  apply bind_Returns in H as (to1 & lx2 & _ & H).
  apply bind_Returns in H as (u3 & lx3 & Hm & H).
  unfold ret in H. injection H as _ <-.
  apply match_Char_Returns in Hm as [A _]. eauto.
Qed.

(** C3: the three conforming examples of the spec, for every
    [new Supported()]: one tag, two tags in order, and no tag. *)
Theorem SupportedParser_examples (fresh : Supported) :
  parsedTags fresh ("Supported: 100rel" +:+ nl)
    = Returns [Some "100rel"%string] /\
  parsedTags fresh ("Supported: 100rel, timer" +:+ nl)
    = Returns [Some "100rel"%string; Some "timer"%string] /\
  parsedTags fresh ("Supported: " +:+ nl) = Returns [].
Proof. repeat split; vm_compute; reflexivity. Qed.

(** C4: on [Supported: ,timer] + newline the parse throws UnexpectedToken
    (an identifier was expected, a comma found) at offset 11, the offset
    of the comma; nothing is returned. *)
Theorem SupportedParser_leading_comma (fresh : Supported) :
  chars ("Supported: ,timer" +:+ nl) !! 11 = Some COMMA /\
  fst (parseSupported fresh ("Supported: ,timer" +:+ nl))
    = Throws (UnexpectedToken ID ","%string 11).
Proof. split; vm_compute; reflexivity. Qed.

Lemma match_keyword_accepts tok keyword lx :
  tok <> ID ->
  assoc keyword (keywordTable "command_keywordLexer") = Some tok ->
  currentLexerName lx = "command_keywordLexer"%string ->
  str (map toUpperChar (run isTokenChar (rest lx))) = keyword ->
  exists lx1, match_ (Kind tok) lx = (Returns tt, lx1) /\
              ptr lx1 = ptr lx + length (run isTokenChar (rest lx)).
Proof.
  intros Hid Ha Hctx Hname. unfold match_.
  destruct (run isTokenChar (rest lx)) as [|c id] eqn:E.
  - rewrite <- Hname in Ha. vm_compute in Ha. discriminate.
  - rewrite Hctx, Hname, Ha.
    destruct tok; try contradiction; simpl; eauto.
Qed.

Section HeaderNameFirst.

Variable fresh : Supported.
Variable To : Type.
Variable To_new : To.
Variable AddressParametersParser_parse : To -> L To.

Lemma SupportedParser_parse_headerName_Throws lx e lx' :
  headerName SUPPORTED lx = (Throws e, lx') ->
  SupportedParser_parse fresh lx = (Throws e, lx').
Proof.
  intros H. unfold SupportedParser_parse, SupportedParser_parse_bounded, bind.
  now rewrite H.
Qed.

Lemma AuthorizationParser_parse_headerName_Throws lx e lx' :
  headerName AUTHORIZATION lx = (Throws e, lx') ->
  AuthorizationParser_parse lx = (Throws e, lx').
Proof.
  intros H. unfold AuthorizationParser_parse, bind. now rewrite H.
Qed.

Lemma ToParser_parse_headerName_Throws lx e lx' :
  headerName TO lx = (Throws e, lx') ->
  ToParser_parse To To_new AddressParametersParser_parse lx = (Throws e, lx').
Proof.
  intros H. unfold ToParser_parse, bind. now rewrite H.
Qed.

(** C5: each parser starts by matching the header name against its own
    kind, through the upper-case spelling of the name (so in any
    capitalisation).  When [headerName] fails the parse fails with the
    same failure in the same lexer state: nothing after it has run.
    When the name is not the parser's keyword the failure is
    HeaderNameMismatch at the cursor and the lexer is as it was: not a
    character has been consumed. *)
Theorem parse_matches_header_name_first (lx : Lexer) :
  let name := str (map toUpperChar (run isTokenChar (rest lx))) in
  ((forall e lx', headerName SUPPORTED lx = (Throws e, lx') ->
      SupportedParser_parse fresh lx = (Throws e, lx')) /\
   (forall e lx', headerName AUTHORIZATION lx = (Throws e, lx') ->
      AuthorizationParser_parse lx = (Throws e, lx')) /\
   (forall e lx', headerName TO lx = (Throws e, lx') ->
      ToParser_parse To To_new AddressParametersParser_parse lx
        = (Throws e, lx'))) /\
  ((name <> "SUPPORTED"%string ->
      SupportedParser_parse fresh lx
        = (Throws (HeaderNameMismatch SUPPORTED (lexemeAt lx) (ptr lx)), lx)) /\
   (name <> "AUTHORIZATION"%string ->
      AuthorizationParser_parse lx
        = (Throws (HeaderNameMismatch AUTHORIZATION (lexemeAt lx) (ptr lx)), lx)) /\
   (name <> "TO"%string ->
      ToParser_parse To To_new AddressParametersParser_parse lx
        = (Throws (HeaderNameMismatch TO (lexemeAt lx) (ptr lx)), lx))) /\
  (currentLexerName lx = "command_keywordLexer"%string ->
   (name = "SUPPORTED"%string ->
      exists lx1, match_ (Kind SUPPORTED) lx = (Returns tt, lx1)) /\
   (name = "AUTHORIZATION"%string ->
      exists lx1, match_ (Kind AUTHORIZATION) lx = (Returns tt, lx1)) /\
   (name = "TO"%string ->
      exists lx1, match_ (Kind TO) lx = (Returns tt, lx1))).
Proof.
  intros name. split; [|split].
  - auto using SupportedParser_parse_headerName_Throws,
      AuthorizationParser_parse_headerName_Throws,
      ToParser_parse_headerName_Throws.
  - repeat split; intros Hne.
    + apply SupportedParser_parse_headerName_Throws.
      apply (headerName_mismatch SUPPORTED "SUPPORTED"); try discriminate;
        [|exact Hne].
      intros n Hn. exact (keyword_of n SUPPORTED Hn).
    + apply AuthorizationParser_parse_headerName_Throws.
      apply (headerName_mismatch AUTHORIZATION "AUTHORIZATION");
        try discriminate; [|exact Hne].
      intros n Hn. exact (keyword_of n AUTHORIZATION Hn).
    + apply ToParser_parse_headerName_Throws.
      apply (headerName_mismatch TO "TO"); try discriminate; [|exact Hne].
      intros n Hn. exact (keyword_of n TO Hn).
  - intros Hctx. repeat split; intros Hn.
    + destruct (match_keyword_accepts SUPPORTED "SUPPORTED" lx)
        as (lx1 & H & _); try discriminate; eauto.
    + destruct (match_keyword_accepts AUTHORIZATION "AUTHORIZATION" lx)
        as (lx1 & H & _); try discriminate; eauto.
    + destruct (match_keyword_accepts TO "TO" lx)
        as (lx1 & H & _); try discriminate; eauto.
Qed.

End HeaderNameFirst.

Lemma parse_matches_header_name_first_witness :
  SupportedParser_parse noFields (commandLexer ("Via: 100rel" +:+ nl))
    = (Throws (HeaderNameMismatch SUPPORTED "Via"%string 0),
       commandLexer ("Via: 100rel" +:+ nl)) /\
  AuthorizationParser_parse (commandLexer ("Via: 100rel" +:+ nl))
    = (Throws (HeaderNameMismatch AUTHORIZATION "Via"%string 0),
       commandLexer ("Via: 100rel" +:+ nl)) /\
  ToParser_parse unit tt (fun to => ret to) (commandLexer ("Via: 100rel" +:+ nl))
    = (Throws (HeaderNameMismatch TO "Via"%string 0),
       commandLexer ("Via: 100rel" +:+ nl)) /\
  exists lx1,
    match_ (Kind SUPPORTED) (commandLexer ("sUPPorted: 100rel" +:+ nl))
      = (Returns tt, lx1).
Proof.
  destruct (parse_matches_header_name_first noFields unit tt (fun to => ret to)
              (commandLexer ("Via: 100rel" +:+ nl)))
    as (_ & (HS & HA & HT) & _).
  destruct (parse_matches_header_name_first noFields unit tt (fun to => ret to)
              (commandLexer ("sUPPorted: 100rel" +:+ nl)))
    as (_ & _ & HC).
  split; [apply HS; vm_compute; discriminate|].
  split; [apply HA; vm_compute; discriminate|].
  split; [apply HT; vm_compute; discriminate|].
  apply HC; reflexivity.
Defined.

(** C6: the Authorization example parses to the scheme Digest and the two
    parameters realm and nonce, in the order of the input. *)
Theorem AuthorizationParser_digest_example :
  exists lx',
    AuthorizationParser_parse (commandLexer digestExample)
      = (Returns (mkAuthorization
                    (Some "Digest"%string)
                    [("realm"%string, "example.com"%string);
                     ("nonce"%string, "abc123"%string)]),
         lx').
Proof. eexists. vm_compute. reflexivity. Qed.

Lemma advances_ptr v lx lx' : advances v lx lx' -> ptr lx' = ptr lx + length v.
Proof. intros (_ & _ & P & _). exact P. Qed.

(** C7: [SupportedParser.parse] terminates on every lexer state, hence on
    every input string.  It never uses up its iteration bound, a larger
    bound changes nothing, and a pass of either loop that does not throw
    has moved the cursor forward by at least one character. *)
Theorem SupportedParser_parse_terminates (fresh : Supported) (lx : Lexer) :
  (exists r lx', SupportedParser_parse fresh lx = (r, lx') /\ r <> Diverges) /\
  (forall fuel, length (buffer lx) < fuel ->
     SupportedParser_parse_bounded fresh fuel lx = SupportedParser_parse fresh lx) /\
  (forall fuel acc,
     length (rest lx) <= fuel ->
     (exists acc' lx', tagBody fresh fuel acc lx = (Returns acc', lx') /\
                       ptr lx < ptr lx') \/
     (exists e lx', tagBody fresh fuel acc lx = (Throws e, lx'))) /\
  (forall acc,
     (exists acc' lx', commaBody fresh acc lx = (Returns acc', lx') /\
                       ptr lx < ptr lx') \/
     (exists e lx', commaBody fresh acc lx = (Throws e, lx'))).
Proof.
  split; [|split; [|split]].
  - destruct (SupportedParser_parse fresh lx) as [r lx'] eqn:E.
    exists r, lx'. split; [reflexivity|]. intros ->.
    now apply SupportedParser_parse_not_Diverges in E.
  - intros fuel. apply SupportedParser_parse_fuel.
  - intros fuel acc Hf.
    destruct (tagBody fresh fuel acc lx) as [[acc'|e|] lx'] eqn:E.
    + left. exists acc', lx'. split; [reflexivity|].
      apply tagBody_Returns in E
        as (ws1 & tag & ws2 & v & tags & _ & T & _ & _ & A & _).
      apply advances_ptr in A. apply isTag_length in T.
      rewrite !length_app in A. lia.
    + right. eauto.
    + now apply tagBody_not_Diverges in E.
  - intros acc.
    destruct (commaBody fresh acc lx) as [[acc'|e|] lx'] eqn:E.
    + left. exists acc', lx'. split; [reflexivity|].
      apply commaBody_Returns in E as (ws1 & tag & ws2 & _ & _ & _ & A & _).
      apply advances_ptr in A. simpl in A. lia.
    + right. eauto.
    + now apply commaBody_not_Diverges in E.
Qed.

Lemma SupportedParser_parse_terminates_witness :
  SupportedParser_parse_bounded noFields 1000
    (commandLexer ("Supported: 100rel, timer" +:+ nl))
  = SupportedParser_parse noFields
      (commandLexer ("Supported: 100rel, timer" +:+ nl)).
Proof.
  destruct (SupportedParser_parse_terminates noFields
              (commandLexer ("Supported: 100rel, timer" +:+ nl)))
    as (_ & Hfuel & _).
  apply Hfuel. vm_compute. lia.
Defined.

(** ** Parser objects *)

Lemma call_lookup {A} (m : L A) (σ : Store) l lx :
  σ !! l = Some lx ->
  call (Some l) m σ = (fst (m lx), <[l:=snd (m lx)]> σ).
Proof.
  intros E. unfold call. rewrite E. now destruct (m lx).
Qed.

Lemma SupportedParser_new_string text (σ : Store) :
  exists l,
    SupportedParser_new (JsString text) σ
      = (Returns (mkParser "SupportedParser" (Some l)),
         <[l:=commandLexer text]> σ) /\
    σ !! l = None.
Proof.
  exists (fresh (dom σ)). split; [reflexivity|].
  apply not_elem_of_dom, is_fresh.
Qed.

(** C8: two parsers built from the same string, each with a lexer of its
    own, give the same outcome: the same failure, or the same list of
    [Supported] elements.  The first parse does not touch the lexer of the
    second parser. *)
Theorem SupportedParser_two_instances_agree
    (fresh : Supported) (text : string) (σ : Store) :
  exists p1 p2 σ1 σ2 r1 r2 σ3 σ4,
    SupportedParser_new (JsString text) σ = (Returns p1, σ1) /\
    SupportedParser_new (JsString text) σ1 = (Returns p2, σ2) /\
    lexer p1 <> lexer p2 /\
    SupportedParser_parse_method fresh p1 σ2 = (r1, σ3) /\
    SupportedParser_parse_method fresh p2 σ3 = (r2, σ4) /\
    r1 = r2 /\
    r1 = fst (parseSupported fresh text).
Proof.
  destruct (SupportedParser_new_string text σ) as (l1 & H1 & F1).
  destruct (SupportedParser_new_string text (<[l1:=commandLexer text]> σ))
    as (l2 & H2 & F2).
  assert (Hne : l1 <> l2).
  { intros <-. rewrite lookup_insert_eq in F2. discriminate. }
  set (σ2 := <[l2:=commandLexer text]> (<[l1:=commandLexer text]> σ)) in *.
  assert (L1 : σ2 !! l1 = Some (commandLexer text)).
  { unfold σ2. rewrite lookup_insert_ne by congruence.
    apply lookup_insert_eq. }
  set (m := SupportedParser_parse fresh).
  set (σ3 := <[l1:=snd (m (commandLexer text))]> σ2).
  assert (L2 : σ3 !! l2 = Some (commandLexer text)).
  { unfold σ3, σ2. rewrite lookup_insert_ne by congruence.
    apply lookup_insert_eq. }
  eexists _, _, _, _, _, _, _, _.
  split; [exact H1|]. split; [exact H2|].
  split; [simpl; congruence|].
  split; [exact (call_lookup m σ2 l1 _ L1)|].
  split; [exact (call_lookup m σ3 l2 _ L2)|].
  split; reflexivity.
Qed.

(** ** Which elements get a header name *)



Section SupportedParserReads.

Variable fresh : Supported.



End SupportedParserReads.








(** C10: handed a lexer object, each of the three constructors returns a
    parser that refers to that very lexer, after selecting the context
    command_keywordLexer on it whatever context it had; the buffer, the
    cursor and the current match of the lexer, and every other lexer, are
    as before, and nothing is thrown. *)
Theorem constructors_select_command_keywordLexer
    (σ : Store) (l : nat) (lx : Lexer) :
  σ !! l = Some lx ->
  let lx' := mkLexer (buffer lx) (ptr lx) "command_keywordLexer"
                     (currentMatch lx) in
  SupportedParser_new (JsObject l) σ
    = (Returns (mkParser "SupportedParser" (Some l)), <[l:=lx']> σ) /\
  AuthorizationParser_new (JsObject l) σ
    = (Returns (mkParser "AuthorizationParser" (Some l)), <[l:=lx']> σ) /\
  ToParser_new (JsObject l) σ
    = (Returns (mkParser "ToParser" (Some l)), <[l:=lx']> σ).
Proof.
  intros E lx'.
  unfold SupportedParser_new, AuthorizationParser_new, ToParser_new.
  simpl. unfold bind.
  rewrite (call_lookup (selectLexer "command_keywordLexer") σ l lx E).
  simpl. auto.
Qed.

Lemma constructors_select_command_keywordLexer_witness :
  let σ : Store := {[ 7 := mkLexer (chars "To: x") 3 "method_keywordLexer" None ]} in
  let lx' := mkLexer (chars "To: x") 3 "command_keywordLexer" None in
  SupportedParser_new (JsObject 7) σ
    = (Returns (mkParser "SupportedParser" (Some 7)), <[7:=lx']> σ) /\
  AuthorizationParser_new (JsObject 7) σ
    = (Returns (mkParser "AuthorizationParser" (Some 7)), <[7:=lx']> σ) /\
  ToParser_new (JsObject 7) σ
    = (Returns (mkParser "ToParser" (Some 7)), <[7:=lx']> σ).
Proof.
  intros σ lx'.
  apply (constructors_select_command_keywordLexer σ 7
           (mkLexer (chars "To: x") 3 "method_keywordLexer" None)).
  reflexivity.
Defined.

(** [null] also has type object, but there is no lexer behind it. *)
Lemma SupportedParser_new_null (σ : Store) :
  SupportedParser_new JsNull σ = (Throws TypeError, σ).
Proof. reflexivity. Qed.

(** * Further properties of the parsers *)

(** ** Conforming headers are accepted *)

Lemma bind_step {S A B} (m : M S A) (k : A -> M S B) s a s1 :
  m s = (Returns a, s1) -> bind m k s = k a s1.
Proof. intros E. unfold bind. now rewrite E. Qed.




Lemma match_Char_reads lx c r :
  rest lx = c :: r ->
  exists lx', match_ (Char c) lx = (Returns tt, lx') /\ rest lx' = r.
Proof.
  intros E.
  assert (Hc : buffer lx !! ptr lx = Some c).
  { pose proof (lookup_drop (buffer lx) (ptr lx) 0) as Hl.
    rewrite Nat.add_0_r in Hl. rewrite <- Hl.
    unfold rest in E. now rewrite E. }
  unfold match_. rewrite Hc, Ascii.eqb_refl.
  eexists. split; [reflexivity|].
  rewrite rest_consume, E. reflexivity.
Qed.


Section SupportedParserAccepts.

Variable fresh : Supported.




End SupportedParserAccepts.



(** ** What a returned list says about the text *)

Lemma CommaTail_tags v tags :
  CommaTail v tags ->
  Forall (fun t => exists tag, isTag tag /\ t = str tag) tags.
Proof. induction 1; constructor; eauto. Qed.

Lemma TagGroups_tags v groups :
  TagGroups v groups ->
  Forall (fun t => exists tag, isTag tag /\ t = str tag)
         (flat_map (fun g => fst g :: snd g) groups).
Proof.
  induction 1 as [|ws1 tag ws2 v tags w groups W1 T W2 C G IH]; simpl.
  - constructor.
  - constructor; [eauto|]. apply Forall_app. split; [|exact IH].
    eapply CommaTail_tags; eassumption.
Qed.

Lemma optionTags_elements fresh groups :
  optionTags (elements fresh groups)
  = map Some (flat_map (fun g => fst g :: snd g) groups).
Proof.
  unfold optionTags, elements.
  induction groups as [|[tag tags] groups IH]; [reflexivity|].
  simpl. rewrite map_app, map_app, IH, !map_map. reflexivity.
Qed.

(** X2: the option-tags of a returned list are read off the text.  The
    text between the header name and the newline the cursor stops on is a
    sequence of tag groups, the returned tags are the tags of those groups
    in the order of the text, and each is a non-empty run of token
    characters: no tag is empty, and none holds whitespace, a comma or a
    newline. *)
Theorem SupportedParser_returns_tags_of_text
    (fresh : Supported) (lx : Lexer) l lx' :
  SupportedParser_parse fresh lx = (Returns l, lx') ->
  exists lx1 v groups,
    headerName SUPPORTED lx = (Returns tt, lx1) /\
    rest lx1 = v ++ rest lx' /\
    head (rest lx') = Some LF /\
    TagGroups v groups /\
    optionTags l = map Some (flat_map (fun g => fst g :: snd g) groups) /\
    Forall (fun t => exists tag, isTag tag /\ t = Some (str tag))
           (optionTags l).
Proof.
  intros H.
  apply SupportedParser_parse_Returns in H
    as (lx1 & v & groups & Hh & G & A & -> & Hnl).
  exists lx1, v, groups.
  split; [exact Hh|]. split; [apply A|]. split; [exact Hnl|].
  split; [exact G|]. split; [apply optionTags_elements|].
  rewrite optionTags_elements. apply Forall_map.
  eapply Forall_impl; [apply (TagGroups_tags v groups G)|].
  intros t (tag & T & ->). eauto.
Qed.

Lemma SupportedParser_returns_tags_of_text_witness :
  exists lx1 v groups,
    headerName SUPPORTED (commandLexer ("Supported: a,b c" +:+ nl))
      = (Returns tt, lx1) /\
    rest lx1 = v ++ [LF] /\
    head [LF] = Some LF /\
    TagGroups v groups /\
    [Some "a"%string; Some "b"%string; Some "c"%string]
      = map Some (flat_map (fun g => fst g :: snd g) groups) /\
    Forall (fun t => exists tag, isTag tag /\ t = Some (str tag))
           [Some "a"%string; Some "b"%string; Some "c"%string].
Proof.
  refine (SupportedParser_returns_tags_of_text noFields
            (commandLexer ("Supported: a,b c" +:+ nl))
            [mkSupported (Some "Supported"%string) (Some "a"%string);
             mkSupported None (Some "b"%string);
             mkSupported (Some "Supported"%string) (Some "c"%string)]
            (mkLexer (chars ("Supported: a,b c" +:+ nl)) 16
                     "command_keywordLexer" (Some (mkToken ID "c" 15)))
            _).
  vm_compute. reflexivity.
Defined.

(** ** The lexer is only ever moved forward *)

Lemma keeps_refl lx : keeps lx lx.
Proof. unfold keeps. auto. Qed.

Lemma keeps_trans a b c : keeps a b -> keeps b c -> keeps a c.
Proof.
  unfold keeps. intros (B1 & N1 & P1 & Q1) (B2 & N2 & P2 & Q2).
  rewrite B1 in *. repeat split; try congruence; try lia; auto.
Qed.

Lemma keeps_run p lx cm :
  keeps lx (mkLexer (buffer lx) (ptr lx + length (run p (rest lx)))
                    (currentLexerName lx) cm).
Proof.
  unfold keeps. simpl. repeat split; [lia|].
  pose proof (run_length p (rest lx)) as Hr.
  unfold rest in Hr at 2. rewrite length_drop in Hr. lia.
Qed.

Lemma forwardOnly_bind {A B} (m : L A) (k : A -> L B) :
  forwardOnly m -> (forall a, forwardOnly (k a)) -> forwardOnly (bind m k).
Proof.
  intros Hm Hk lx r lx'. unfold bind.
  destruct (m lx) as [[a|e|] lx1] eqn:E; intros H.
  - eapply keeps_trans; [eapply Hm, E | eapply Hk, H].
  - injection H as _ <-. eapply Hm, E.
  - injection H as _ <-. eapply Hm, E.
Qed.

Lemma forwardOnly_ret {A} (a : A) : forwardOnly (ret a).
Proof. intros lx r lx' H. injection H as _ <-. apply keeps_refl. Qed.

Lemma forwardOnly_lookAhead n : forwardOnly (lookAhead n).
Proof. intros lx r lx' H. injection H as _ <-. apply keeps_refl. Qed.

Lemma forwardOnly_getNextToken : forwardOnly getNextToken.
Proof. intros lx r lx' H. injection H as _ <-. apply keeps_refl. Qed.

Lemma forwardOnly_getTokenValue t : forwardOnly (getTokenValue t).
Proof.
  intros lx r lx' H. destruct t; injection H as _ <-; apply keeps_refl.
Qed.

Lemma forwardOnly_SPorHT : forwardOnly SPorHT.
Proof.
  intros lx r lx' H. injection H as _ <-. apply (keeps_run isSPorHT).
Qed.

Lemma forwardOnly_match expected : forwardOnly (match_ expected).
Proof.
  intros lx r lx'. unfold match_. destruct expected as [k|c].
  - match goal with |- context [if ?b then _ else _] => destruct b end;
      intros H; injection H as _ <-;
      [apply (keeps_run isTokenChar) | apply keeps_refl].
  - destruct (buffer lx !! ptr lx) as [c'|] eqn:E;
      [destruct (Ascii.eqb c' c)|];
      intros H; injection H as _ <-; try apply keeps_refl.
    apply lookup_lt_Some in E.
    unfold keeps, consume. simpl. repeat split; lia.
Qed.

Lemma forwardOnly_headerName tok : forwardOnly (headerName tok).
Proof.
  intros lx r lx'. unfold headerName.
  assert (Hm : forwardOnly (match_ (Kind tok) >> match_ (Char COLON)))
    by (apply forwardOnly_bind; intros; apply forwardOnly_match).
  destruct ((match_ (Kind tok) >> match_ (Char COLON)) lx)
    as [[u|e|] lx1] eqn:E; intros H.
  - eapply keeps_trans; [eapply Hm, E | eapply forwardOnly_SPorHT, H].
  - injection H as _ <-. eapply Hm, E.
  - injection H as _ <-. eapply Hm, E.
Qed.

Create HintDb forward.
#[local] Hint Resolve forwardOnly_ret forwardOnly_lookAhead
  forwardOnly_getNextToken forwardOnly_getTokenValue forwardOnly_SPorHT
  forwardOnly_match forwardOnly_headerName : forward.

Ltac forward_steps :=
  repeat (apply forwardOnly_bind; [|intros ?]); auto with forward.

Section SupportedParserForward.

Variable fresh : Supported.

Lemma forwardOnly_commaBody acc : forwardOnly (commaBody fresh acc).
Proof. unfold commaBody. forward_steps. Qed.

Lemma forwardOnly_commaLoop fuel : forall acc,
  forwardOnly (commaLoop fresh fuel acc).
Proof.
  induction fuel as [|fuel IH]; intros acc; simpl.
  - intros lx r lx' H. injection H as _ <-. apply keeps_refl.
  - apply forwardOnly_bind; [auto with forward|]. intros la.
    destruct (isChar COMMA la); [|auto with forward].
    apply forwardOnly_bind; [apply forwardOnly_commaBody | apply IH].
Qed.

Lemma forwardOnly_tagBody fuel acc : forwardOnly (tagBody fresh fuel acc).
Proof.
  unfold tagBody. forward_steps. apply forwardOnly_commaLoop.
Qed.

Lemma forwardOnly_tagLoop fuel : forall acc,
  forwardOnly (tagLoop fresh fuel acc).
Proof.
  induction fuel as [|fuel IH]; intros acc.
  - intros lx r lx' H. injection H as _ <-. apply keeps_refl.
  - rewrite tagLoop_S.
    apply forwardOnly_bind; [auto with forward|]. intros la.
    destruct (negb (isChar LF la)); [|auto with forward].
    apply forwardOnly_bind; [apply forwardOnly_tagBody | apply IH].
Qed.

End SupportedParserForward.

(** X3: however [SupportedParser.parse] ends -- with a list or with a
    failure -- it has left the lexer's buffer and its active context as
    they were, has not moved the cursor backwards, and has not moved it
    past the end of the buffer. *)
Theorem SupportedParser_parse_moves_forward_only
    (fresh : Supported) (lx : Lexer) r lx' :
  SupportedParser_parse fresh lx = (r, lx') ->
  buffer lx' = buffer lx /\
  currentLexerName lx' = currentLexerName lx /\
  ptr lx <= ptr lx' /\
  (ptr lx <= length (buffer lx) -> ptr lx' <= length (buffer lx)).
Proof.
  unfold SupportedParser_parse, SupportedParser_parse_bounded.
  apply (forwardOnly_bind (headerName SUPPORTED)
           (fun _ => tagLoop fresh (S (length (buffer lx))) [])).
  - apply forwardOnly_headerName.
  - intros _. apply forwardOnly_tagLoop.
Qed.

Lemma SupportedParser_parse_moves_forward_only_witness :
  let lx := commandLexer ("Supported: 100rel,,timer" +:+ nl) in
  let lx' := mkLexer (buffer lx) 18 "command_keywordLexer"
                     (Some (mkToken ID "100rel" 11)) in
  buffer lx' = buffer lx /\
  currentLexerName lx' = currentLexerName lx /\
  ptr lx <= ptr lx' /\
  (ptr lx <= length (buffer lx) -> ptr lx' <= length (buffer lx)).
Proof.
  intros lx lx'.
  apply (SupportedParser_parse_moves_forward_only noFields lx
           (Throws (UnexpectedToken ID ","%string 18)) lx').
  vm_compute. reflexivity.
Defined.

(** ** The failures of SupportedParser.parse *)

Lemma bind_Throws {S A B} (m : M S A) (k : A -> M S B) s e s' :
  bind m k s = (Throws e, s') ->
  m s = (Throws e, s') \/
  exists a s1, m s = (Returns a, s1) /\ k a s1 = (Throws e, s').
Proof.
  unfold bind. destruct (m s) as [[a| |] s1]; intros E; try discriminate.
  - eauto.
  - left. congruence.
Qed.

Lemma run_nil_stopsAt p l : run p l = [] -> stopsAt p l.
Proof.
  destruct l as [|c l]; simpl; [trivial|].
  destruct (p c); [discriminate | reflexivity].
Qed.

Lemma match_ID_Throws lx e lx' :
  match_ (Kind ID) lx = (Throws e, lx') ->
  lx' = lx /\ e = UnexpectedToken ID (lexemeAt lx) (ptr lx) /\
  stopsAt isTokenChar (rest lx).
Proof.
  unfold match_.
  destruct (run isTokenChar (rest lx)) as [|c id] eqn:E; [|discriminate].
  intros H. injection H as <- <-.
  auto using run_nil_stopsAt.
Qed.

Lemma readId_Throws {A} (k : string -> L A) lx e lx' :
  (match_ (Kind ID) >>
   let* token := getNextToken in
   let* tag := getTokenValue token in
   k tag) lx = (Throws e, lx') ->
  (e = UnexpectedToken ID (lexemeAt lx') (ptr lx') /\
   stopsAt isTokenChar (rest lx')) \/
  exists tag lx1, k (str tag) lx1 = (Throws e, lx').
Proof.
  intros H.
  apply bind_Throws in H as [H|(u & lx1 & Hm & H)].
  - apply match_ID_Throws in H as (-> & -> & S). auto.
  - apply match_Kind_Returns in Hm as (tag & _ & _ & _ & Hc).
    unfold bind at 1, getNextToken at 1 in H. rewrite Hc in H.
    simpl in H. unfold bind at 1, ret at 1 in H. eauto.
Qed.

Lemma isChar_head c l : isChar c (head l) = true -> exists r, l = c :: r.
Proof.
  destruct l as [|c' l]; simpl; [discriminate|].
  intros E. apply Ascii.eqb_eq in E. subst. eauto.
Qed.

Section SupportedParserFailures.

Variable fresh : Supported.

Lemma commaBody_Throws acc lx e lx' :
  isChar COMMA (head (rest lx)) = true ->
  commaBody fresh acc lx = (Throws e, lx') ->
  e = UnexpectedToken ID (lexemeAt lx') (ptr lx') /\
  stopsAt isTokenChar (rest lx').
Proof.
  intros Hc H. apply isChar_head in Hc as (r & E).
  destruct (match_Char_reads lx COMMA r E) as (lx1 & H1 & _).
  unfold commaBody in H. rewrite (bind_step _ _ _ _ _ H1) in H.
  apply bind_Throws in H as [H|(u & lx2 & _ & H)]; [discriminate|].
  apply readId_Throws in H as [H|(tag & lx3 & H)]; [exact H|].
  apply bind_Throws in H as [H|(u' & lx4 & _ & H)]; discriminate.
Qed.

Lemma commaLoop_Throws fuel : forall acc lx e lx',
  commaLoop fresh fuel acc lx = (Throws e, lx') ->
  e = UnexpectedToken ID (lexemeAt lx') (ptr lx') /\
  stopsAt isTokenChar (rest lx').
Proof.
  induction fuel as [|fuel IH]; intros acc lx e lx' H; [discriminate|].
  simpl in H. unfold bind at 1 in H. rewrite lookAhead_0 in H.
  destruct (isChar COMMA (head (rest lx))) eqn:Hc; [|discriminate].
  apply bind_Throws in H as [H|(acc1 & lx1 & _ & H)].
  - eapply commaBody_Throws; eassumption.
  - eapply IH; eassumption.
Qed.

Lemma tagBody_Throws fuel acc lx e lx' :
  tagBody fresh fuel acc lx = (Throws e, lx') ->
  e = UnexpectedToken ID (lexemeAt lx') (ptr lx') /\
  stopsAt isTokenChar (rest lx').
Proof.
  unfold tagBody. intros H.
  apply bind_Throws in H as [H|(u & lx1 & _ & H)]; [discriminate|].
  apply readId_Throws in H as [H|(tag & lx2 & H)]; [exact H|].
  apply bind_Throws in H as [H|(u' & lx3 & _ & H)]; [discriminate|].
  eapply commaLoop_Throws; eassumption.
Qed.

Lemma tagLoop_Throws fuel : forall acc lx e lx',
  tagLoop fresh fuel acc lx = (Throws e, lx') ->
  e = UnexpectedToken ID (lexemeAt lx') (ptr lx') /\
  stopsAt isTokenChar (rest lx').
Proof.
  induction fuel as [|fuel IH]; intros acc lx e lx' H; [discriminate|].
  rewrite tagLoop_S in H. unfold bind at 1 in H. rewrite lookAhead_0 in H.
  destruct (negb (isChar LF (head (rest lx)))); [|discriminate].
  apply bind_Throws in H as [H|(acc1 & lx1 & _ & H)].
  - eapply tagBody_Throws; eassumption.
  - eapply IH; eassumption.
Qed.

End SupportedParserFailures.

(** X4: [SupportedParser.parse] fails in two ways only.  Either the header
    name (with its colon) did not match, or the header name matched and an
    identifier was expected where the cursor now stands, on a character
    that cannot start one, or at the end of the input.  The offset of the
    failure is the offset the cursor is left at.  The comma that the inner
    loop consumes has just been peeked, and the token read after
    [match(ID)] is always there, so neither can fail. *)
Theorem SupportedParser_parse_failures
    (fresh : Supported) (lx : Lexer) e lx' :
  SupportedParser_parse fresh lx = (Throws e, lx') ->
  e = HeaderNameMismatch SUPPORTED (lexemeAt lx') (ptr lx') \/
  (e = UnexpectedToken ID (lexemeAt lx') (ptr lx') /\
   stopsAt isTokenChar (rest lx') /\
   exists lx1, headerName SUPPORTED lx = (Returns tt, lx1)).
Proof.
  unfold SupportedParser_parse, SupportedParser_parse_bounded. intros H.
  apply bind_Throws in H as [H|([] & lx1 & Hh & H)].
  - left. unfold headerName in H.
    destruct ((match_ (Kind SUPPORTED) >> match_ (Char COLON)) lx)
      as [[u|e0|] lx1]; try discriminate.
    injection H as <- <-. reflexivity.
  - right. apply tagLoop_Throws in H as [-> S]. eauto.
Qed.

Lemma SupportedParser_parse_failures_witness :
  let lx' := mkLexer (chars ("Supported: 100rel,,timer" +:+ nl)) 18
                     "command_keywordLexer" (Some (mkToken ID "100rel" 11)) in
  UnexpectedToken ID ","%string 18
    = HeaderNameMismatch SUPPORTED (lexemeAt lx') (ptr lx') \/
  (UnexpectedToken ID ","%string 18
     = UnexpectedToken ID (lexemeAt lx') (ptr lx') /\
   stopsAt isTokenChar (rest lx') /\
   exists lx1,
     headerName SUPPORTED (commandLexer ("Supported: 100rel,,timer" +:+ nl))
       = (Returns tt, lx1)).
Proof.
  intros lx'.
  apply (SupportedParser_parse_failures noFields
           (commandLexer ("Supported: 100rel,,timer" +:+ nl))).
  vm_compute. reflexivity.
Defined.

(** ** ToParser.parse and the newline *)

Lemma lookup_ptr_head lx : buffer lx !! ptr lx = head (rest lx).
Proof.
  pose proof (lookAhead_0 lx) as H. unfold lookAhead in H.
  rewrite Nat.add_0_r in H. now injection H.
Qed.

(** X5: [ToParser.parse] hands out the [To] object only when the address
    sub-grammar stopped right before a newline, which it then consumes.
    When the sub-grammar has returned and anything else follows -- text,
    whitespace, or the end of the input -- the parse throws
    UnexpectedCharacter at that offset and the object the sub-grammar had
    filled in is not returned.  This holds whatever the address
    sub-grammar is. *)
Theorem ToParser_parse_requires_newline
    (To : Type) (To_new : To) (AddressParametersParser_parse : To -> L To)
    (lx lx1 lx2 : Lexer) (to : To) :
  headerName TO lx = (Returns tt, lx1) ->
  AddressParametersParser_parse To_new lx1 = (Returns to, lx2) ->
  (head (rest lx2) = Some LF ->
   ToParser_parse To To_new AddressParametersParser_parse lx
     = (Returns to, consume 1 lx2)) /\
  (head (rest lx2) <> Some LF ->
   ToParser_parse To To_new AddressParametersParser_parse lx
     = (Throws (UnexpectedCharacter LF (head (rest lx2)) (ptr lx2)), lx2)).
Proof.
  intros Hh Ha. unfold ToParser_parse.
  rewrite (bind_step _ _ _ _ _ Hh), (bind_step _ _ _ _ _ Ha).
  unfold bind, match_. rewrite lookup_ptr_head.
  split; intros Hc.
  - rewrite Hc. reflexivity.
  - destruct (head (rest lx2)) as [c|]; [|reflexivity].
    destruct (Ascii.eqb c LF) eqn:E; [|reflexivity].
    apply Ascii.eqb_eq in E. congruence.
Qed.

Lemma ToParser_parse_requires_newline_witness :
  ToParser_parse unit tt (fun to => match_ (Kind ID) >> ret to)
    (commandLexer ("To: bob alice" +:+ nl))
  = (Throws (UnexpectedCharacter LF (Some SP) 7),
     mkLexer (chars ("To: bob alice" +:+ nl)) 7 "command_keywordLexer"
             (Some (mkToken ID "bob" 4))).
Proof.
  refine (proj2 (ToParser_parse_requires_newline unit tt
                   (fun to => match_ (Kind ID) >> ret to)
                   (commandLexer ("To: bob alice" +:+ nl))
                   (mkLexer (chars ("To: bob alice" +:+ nl)) 4
                            "command_keywordLexer"
                            (Some (mkToken TO "To" 0)))
                   (mkLexer (chars ("To: bob alice" +:+ nl)) 7
                            "command_keywordLexer"
                            (Some (mkToken ID "bob" 4)))
                   tt _ _) _).
  - vm_compute. reflexivity.
  - vm_compute. reflexivity.
  - vm_compute. discriminate.
Defined.

(** ** Construction *)

(** X6: handed a string, each of the three constructors builds a lexer of
    its own over that string, in the context command_keywordLexer with the
    cursor at offset 0 and no token matched yet; the reference to it was
    not in use, and every lexer that existed is untouched. *)
Theorem constructors_own_a_new_lexer (text : string) (σ : Store) :
  exists l,
    σ !! l = None /\
    SupportedParser_new (JsString text) σ
      = (Returns (mkParser "SupportedParser" (Some l)),
         <[l:=mkLexer (chars text) 0 "command_keywordLexer" None]> σ) /\
    AuthorizationParser_new (JsString text) σ
      = (Returns (mkParser "AuthorizationParser" (Some l)),
         <[l:=mkLexer (chars text) 0 "command_keywordLexer" None]> σ) /\
    ToParser_new (JsString text) σ
      = (Returns (mkParser "ToParser" (Some l)),
         <[l:=mkLexer (chars text) 0 "command_keywordLexer" None]> σ) /\
    forall l' lx, σ !! l' = Some lx ->
      (<[l:=mkLexer (chars text) 0 "command_keywordLexer" None]> σ) !! l'
        = Some lx.
Proof.
  exists (fresh (dom σ)).
  assert (F : σ !! fresh (dom σ) = None) by apply not_elem_of_dom, is_fresh.
  split; [exact F|]. repeat (split; [reflexivity|]).
  intros l' lx E. rewrite lookup_insert_ne; [exact E | congruence].
Qed.

(** X7: an argument of type object behind which there is no lexer --
    [null], or an object that is not a lexer -- makes each of the three
    constructors throw a TypeError at [this.lexer.selectLexer], with no
    lexer changed. *)
Theorem constructors_throw_without_lexer (arg0 : JsValue) (σ : Store) :
  typeof arg0 = "object"%string ->
  (forall l, arg0 = JsObject l -> σ !! l = None) ->
  SupportedParser_new arg0 σ = (Throws TypeError, σ) /\
  AuthorizationParser_new arg0 σ = (Throws TypeError, σ) /\
  ToParser_new arg0 σ = (Throws TypeError, σ).
Proof.
  intros Ht Hl.
  unfold SupportedParser_new, AuthorizationParser_new, ToParser_new.
  rewrite Ht. simpl.
  destruct arg0 as [| |n|s|l]; try discriminate; simpl.
  - auto.
  - unfold bind, call. rewrite (Hl l eq_refl). auto.
Qed.

Lemma constructors_throw_without_lexer_witness :
  SupportedParser_new JsNull ∅ = (Throws TypeError, ∅) /\
  AuthorizationParser_new JsNull ∅ = (Throws TypeError, ∅) /\
  ToParser_new JsNull ∅ = (Throws TypeError, ∅).
Proof.
  apply (constructors_throw_without_lexer JsNull ∅).
  - reflexivity.
  - intros l H. discriminate.
Defined.

(** ** Several parsers on one lexer *)

Lemma new_on_lexer (σ : Store) l lx :
  σ !! l = Some lx ->
  let lx' := mkLexer (buffer lx) (ptr lx) "command_keywordLexer"
                     (currentMatch lx) in
  SupportedParser_new (JsObject l) σ
    = (Returns (mkParser "SupportedParser" (Some l)), <[l:=lx']> σ) /\
  AuthorizationParser_new (JsObject l) σ
    = (Returns (mkParser "AuthorizationParser" (Some l)), <[l:=lx']> σ) /\
  ToParser_new (JsObject l) σ
    = (Returns (mkParser "ToParser" (Some l)), <[l:=lx']> σ).
Proof.
  intros E lx'.
  unfold SupportedParser_new, AuthorizationParser_new, ToParser_new.
  simpl. unfold bind.
  rewrite (call_lookup (selectLexer "command_keywordLexer") σ l lx E).
  simpl. auto.
Qed.

Lemma headerName_at_newline tok lx :
  tok <> ID ->
  head (rest lx) = Some LF ->
  headerName tok lx
    = (Throws (HeaderNameMismatch tok (str [LF]) (ptr lx)), lx).
Proof.
  intros Hid Hnl.
  destruct (rest lx) as [|c r] eqn:E; [discriminate|].
  injection Hnl as ->.
  unfold headerName, bind, match_. rewrite E. simpl.
  destruct tok; try contradiction; unfold lexemeAt; rewrite E; reflexivity.
Qed.

(** X8: a lexer shared by several parsers is stuck after a Supported
    header.  When a [SupportedParser] built on a borrowed lexer has
    returned its list, the lexer stands on the newline of that header; a
    parser of any of the three kinds built next on the same lexer fails at
    once with HeaderNameMismatch at that newline, and leaves every lexer
    as it found it. *)
Theorem shared_lexer_is_stuck_after_Supported
    (fresh : Supported)
    (To : Type) (To_new : To) (AddressParametersParser_parse : To -> L To)
    (σ σ1 : Store) (l : nat) (lx : Lexer) (list : SupportedList) :
  σ !! l = Some lx ->
  (let* p := SupportedParser_new (JsObject l) in
   SupportedParser_parse_method fresh p) σ = (Returns list, σ1) ->
  exists lx1,
    σ1 !! l = Some lx1 /\
    head (rest lx1) = Some LF /\
    (let* p := SupportedParser_new (JsObject l) in
     SupportedParser_parse_method fresh p) σ1
      = (Throws (HeaderNameMismatch SUPPORTED (str [LF]) (ptr lx1)), σ1) /\
    (let* p := AuthorizationParser_new (JsObject l) in
     AuthorizationParser_parse_method p) σ1
      = (Throws (HeaderNameMismatch AUTHORIZATION (str [LF]) (ptr lx1)), σ1) /\
    (let* p := ToParser_new (JsObject l) in
     ToParser_parse_method To_new AddressParametersParser_parse p) σ1
      = (Throws (HeaderNameMismatch TO (str [LF]) (ptr lx1)), σ1).
Proof.
  intros E H.
  destruct (new_on_lexer σ l lx E) as (HS & _ & _).
  rewrite (bind_step _ _ _ _ _ HS) in H.
  unfold SupportedParser_parse_method in H. cbn [lexer] in H.
  rewrite (call_lookup _ _ l _ (lookup_insert_eq _ _ _)) in H.
  set (lx0 := mkLexer (buffer lx) (ptr lx) "command_keywordLexer"
                      (currentMatch lx)) in *.
  destruct (SupportedParser_parse fresh lx0) as [r lx1] eqn:P.
  simpl in H. injection H as -> <-.
  pose proof (SupportedParser_parse_stops_at_newline fresh lx0 list lx1 P) as Hn.
  rewrite lookAhead_0 in Hn. injection Hn as Hn.
  assert (K : forwardOnly (SupportedParser_parse fresh)).
  { intros a r a' Ha.
    unfold SupportedParser_parse, SupportedParser_parse_bounded in Ha.
    revert Ha.
    apply (forwardOnly_bind (headerName SUPPORTED)
             (fun _ => tagLoop fresh (S (length (buffer a))) [])).
    - apply forwardOnly_headerName.
    - intros _. apply forwardOnly_tagLoop. }
  destruct (K lx0 _ lx1 P) as (_ & Hname & _).
  assert (Hlx1 : mkLexer (buffer lx1) (ptr lx1) "command_keywordLexer"
                         (currentMatch lx1) = lx1).
  { destruct lx1 as [b p n cm]. simpl in *. now rewrite Hname. }
  set (σ1 := <[l:=lx1]> (<[l:=lx0]> σ)).
  assert (E1 : σ1 !! l = Some lx1) by apply lookup_insert_eq.
  assert (Hid : <[l:=lx1]> σ1 = σ1) by (apply insert_id, E1).
  exists lx1. split; [exact E1|]. split; [exact Hn|].
  destruct (new_on_lexer σ1 l lx1 E1) as (NS & NA & NT).
  rewrite Hlx1, Hid in NS, NA, NT.
  rewrite (bind_step _ _ _ _ _ NS), (bind_step _ _ _ _ _ NA),
    (bind_step _ _ _ _ _ NT).
  unfold SupportedParser_parse_method, AuthorizationParser_parse_method,
    ToParser_parse_method. cbn [lexer].
  rewrite !(call_lookup _ _ l _ E1).
  rewrite (SupportedParser_parse_headerName_Throws fresh lx1 _ lx1
             (headerName_at_newline SUPPORTED lx1 ltac:(discriminate) Hn)).
  rewrite (AuthorizationParser_parse_headerName_Throws lx1 _ lx1
             (headerName_at_newline AUTHORIZATION lx1 ltac:(discriminate) Hn)).
  rewrite (ToParser_parse_headerName_Throws To To_new
             AddressParametersParser_parse lx1 _ lx1
             (headerName_at_newline TO lx1 ltac:(discriminate) Hn)).
  simpl. rewrite Hid. auto.
Qed.

Lemma shared_lexer_is_stuck_after_Supported_witness :
  let text := ("Supported: timer" +:+ nl +:+ "To: bob" +:+ nl)%string in
  let lx1 := mkLexer (chars text) 16 "command_keywordLexer"
                     (Some (mkToken ID "timer" 11)) in
  let σ1 : Store := {[ 3 := lx1 ]} in
  exists lx1,
    σ1 !! 3 = Some lx1 /\
    head (rest lx1) = Some LF /\
    (let* p := SupportedParser_new (JsObject 3) in
     SupportedParser_parse_method noFields p) σ1
      = (Throws (HeaderNameMismatch SUPPORTED (str [LF]) (ptr lx1)), σ1) /\
    (let* p := AuthorizationParser_new (JsObject 3) in
     AuthorizationParser_parse_method p) σ1
      = (Throws (HeaderNameMismatch AUTHORIZATION (str [LF]) (ptr lx1)), σ1) /\
    (let* p := ToParser_new (JsObject 3) in
     ToParser_parse_method tt (fun to => match_ (Kind ID) >> ret to) p) σ1
      = (Throws (HeaderNameMismatch TO (str [LF]) (ptr lx1)), σ1).
Proof.
  intros text lx1 σ1.
  apply (shared_lexer_is_stuck_after_Supported noFields unit tt
           (fun to => match_ (Kind ID) >> ret to)
           {[ 3 := mkLexer (chars text) 0 "method_keywordLexer" None ]} σ1 3
           (mkLexer (chars text) 0 "method_keywordLexer" None)
           [mkSupported (Some "Supported"%string) (Some "timer"%string)]).
  - reflexivity.
  - vm_compute. reflexivity.
Defined.

(** * WebRTCommCall *)

(** ** checkConfiguration *)

Lemma flag_accepted (configuration : Configuration) name :
  equalsUndefined (property configuration name)
  || negb (String.eqb (typeofConfig (property configuration name)) "boolean")
  = false
  <-> exists b, configuration !! name = Some (ConfigBoolean b).
Proof.
  unfold property.
  destruct (configuration !! name) as [[| |b|s|]|]; simpl;
    split; intros H; try discriminate;
    try (destruct H; discriminate); eauto.
Qed.

Lemma stream_accepted (configuration : Configuration) name :
  equalsUndefined (property configuration name) = false
  <-> exists v, configuration !! name = Some v /\
                v <> ConfigUndefined /\ v <> ConfigNull.
Proof.
  unfold property.
  destruct (configuration !! name) as [[| |b|s|]|]; simpl;
    split; intros H; try discriminate;
    try (destruct H as (v & H & N1 & N2); injection H as <-; congruence);
    try (destruct H as (v & H & _); discriminate);
    eexists; repeat split; discriminate.
Qed.

(** X9: [checkConfiguration] answers true exactly when the configuration
    has a [localMediaStream] that is neither undefined nor null and each
    of [audioMediaFlag], [videoMediaFlag] and [messageMediaFlag] is a
    boolean -- of either value: a flag set to false passes.  No other
    property of the configuration, present or absent, changes the
    answer. *)
Theorem checkConfiguration_accepts (configuration : Configuration) :
  (checkConfiguration configuration = true <->
   (exists v, configuration !! "localMediaStream"%string = Some v /\
              v <> ConfigUndefined /\ v <> ConfigNull) /\
   (exists b, configuration !! "audioMediaFlag"%string = Some (ConfigBoolean b)) /\
   (exists b, configuration !! "videoMediaFlag"%string = Some (ConfigBoolean b)) /\
   (exists b, configuration !! "messageMediaFlag"%string
                = Some (ConfigBoolean b))) /\
  (forall name value,
     name <> "localMediaStream"%string -> name <> "audioMediaFlag"%string ->
     name <> "videoMediaFlag"%string -> name <> "messageMediaFlag"%string ->
     checkConfiguration (<[name:=value]> configuration)
       = checkConfiguration configuration /\
     checkConfiguration (delete name configuration)
       = checkConfiguration configuration).
Proof.
  split.
  - rewrite <- (stream_accepted configuration "localMediaStream").
    rewrite <- !flag_accepted.
    unfold checkConfiguration.
    destruct (equalsUndefined (property configuration "localMediaStream"));
      destruct (equalsUndefined (property configuration "audioMediaFlag") || _);
      destruct (equalsUndefined (property configuration "videoMediaFlag") || _);
      destruct (equalsUndefined (property configuration "messageMediaFlag") || _);
      split; intros H; try discriminate; try tauto;
      destruct H as (? & ? & ? & ?); discriminate.
  - intros name value N1 N2 N3 N4.
    unfold checkConfiguration, property.
    rewrite !lookup_insert_ne, !lookup_delete_ne by congruence.
    split; reflexivity.
Qed.

(** ** The codec filter *)

Lemma split_cons sep s : exists piece pieces, split sep s = piece :: pieces.
Proof.
  induction s as [|c s (piece & pieces & IH)]; simpl; [eauto|].
  destruct (Ascii.eqb c sep); [eauto|]. rewrite IH. eauto.
Qed.

Lemma noChar_cons sep c s :
  noChar sep (String c s) -> Ascii.eqb c sep = false /\ noChar sep s.
Proof.
  unfold noChar, chars. simpl. intros H. inversion H as [|? ? Hc Hs]; subst.
  split; [now apply Ascii.eqb_neq | exact Hs].
Qed.

Lemma split_none sep s : noChar sep s -> split sep s = [s].
Proof.
  induction s as [|c s IH]; intros H; simpl; [reflexivity|].
  apply noChar_cons in H as [-> H]. now rewrite IH.
Qed.

Lemma split_prefix sep a b :
  noChar sep a -> split sep (a +:+ String sep b) = a :: split sep b.
Proof.
  induction a as [|c a IH]; intros H; simpl.
  - now rewrite Ascii.eqb_refl.
  - apply noChar_cons in H as [-> H]. now rewrite IH.
Qed.

Lemma fold_left_ext {A B} (f g : A -> B -> A) l :
  (forall a b, f a b = g a b) ->
  forall a, fold_left f l a = fold_left g l a.
Proof.
  intros E. induction l as [|b l IH]; intros a; simpl; [reflexivity|].
  now rewrite E, IH.
Qed.

Lemma Forall2_elem_l {A B} (P : A -> B -> Prop) l k x :
  Forall2 P l k -> x ∈ l -> exists y, y ∈ k /\ P x y.
Proof.
  induction 1 as [|a b l k Hab _ IH]; intros Hx; [inversion Hx|].
  apply elem_of_cons in Hx as [->|Hx].
  - exists b. split; [apply list_elem_of_here | exact Hab].
  - destruct (IH Hx) as (y & Hy & Hp). exists y.
    split; [now apply list_elem_of_further | exact Hp].
Qed.

Lemma Forall2_elem_r {A B} (P : A -> B -> Prop) l k y :
  Forall2 P l k -> y ∈ k -> exists x, x ∈ l /\ P x y.
Proof.
  induction 1 as [|a b l k Hab _ IH]; intros Hy; [inversion Hy|].
  apply elem_of_cons in Hy as [->|Hy].
  - exists a. split; [apply list_elem_of_here | exact Hab].
  - destruct (IH Hy) as (x & Hx & Hp). exists x.
    split; [now apply list_elem_of_further | exact Hp].
Qed.

(** *** getOfferedCodecsInMediaDescription *)

Section OfferedCodecs.

Variable toUpperCase : string -> string.
Variable protoMember : string -> bool.
Variable protoSetter : string -> bool.

#[local] Abbreviation getP := (getProperty protoMember).

Lemma setProperty_lookup (object : Codecs) key value key' :
  setProperty protoSetter object key value !! key'
  = if protoSetter key then object !! key'
    else if decide (key = key') then Some value else object !! key'.
Proof.
  unfold setProperty. destruct (protoSetter key); [reflexivity|].
  apply lookup_insert.
Qed.

Section Assignments.

Context {X : Type}.
Variable assignment : X -> option (string * CodecValue).

#[local] Abbreviation assignBy := (assign protoSetter assignment).

Lemma assign_other l key :
  (forall x value, x ∈ l -> assignment x <> Some (key, value)) ->
  forall object, fold_left assignBy l object !! key = object !! key.
Proof.
  induction l as [|x l IH]; intros Hno object; simpl; [reflexivity|].
  rewrite IH by (intros; apply Hno; now apply list_elem_of_further).
  unfold assignBy. destruct (assignment x) as [[k v]|] eqn:E; [|reflexivity].
  rewrite setProperty_lookup. destruct (protoSetter k); [reflexivity|].
  case_decide as Ek; [|reflexivity].
  subst k. exfalso. eapply Hno; [apply list_elem_of_here | exact E].
Qed.

Lemma assign_last l1 x l2 key value object :
  assignment x = Some (key, value) ->
  protoSetter key = false ->
  (forall y value', y ∈ l2 -> assignment y <> Some (key, value')) ->
  fold_left assignBy (l1 ++ x :: l2) object !! key = Some value.
Proof.
  intros E Hs Hno. rewrite fold_left_app. simpl.
  rewrite (assign_other l2 key Hno).
  unfold assignBy at 1. rewrite E, setProperty_lookup, Hs.
  now rewrite decide_True.
Qed.

Lemma assign_keys l key value :
  forall object,
    fold_left assignBy l object !! key = Some value ->
    object !! key = Some value \/
    (protoSetter key = false /\
     exists x, x ∈ l /\ assignment x = Some (key, value)).
Proof.
  induction l as [|x l IH]; intros object H; simpl in H; [now left|].
  apply IH in H as [H|(Hs & y & Hy & Ey)].
  - unfold assignBy in H. destruct (assignment x) as [[k v]|] eqn:E; [|now left].
    rewrite setProperty_lookup in H.
    destruct (protoSetter k) eqn:Hs; [now left|].
    case_decide as Ek; [|now left].
    subst k. injection H as ->. right. split; [exact Hs|].
    exists x. split; [apply list_elem_of_here | exact E].
  - right. split; [exact Hs|]. exists y.
    split; [now apply list_elem_of_further | exact Ey].
Qed.

End Assignments.

Lemma getOfferedCodecs_fold (mediaDescription : MediaDescription) :
  getOfferedCodecsInMediaDescription toUpperCase protoMember protoSetter
    mediaDescription
  = fold_left
      (assign protoSetter
         (fun a => if nameIs "rtpmap" a then rtpmapCodec toUpperCase a
                   else None))
      (attributes mediaDescription)
      (fold_left
         (assign protoSetter
            (fun payloadType =>
               Some (payloadType, getP codecNames payloadType)))
         (mediaFormats (media mediaDescription)) ∅).
Proof.
  unfold getOfferedCodecsInMediaDescription.
  apply fold_left_ext. intros object a. unfold assign.
  destruct (nameIs "rtpmap" a); reflexivity.
Qed.

(** X13: the codec object [getOfferedCodecsInMediaDescription] builds.
    A payload type of the format list that no rtpmap attribute describes
    has the name of the static table [codecNames] -- PCMU for 0, PCMA for
    8 -- and is otherwise undefined unless it names a member of
    [Object.prototype].  A payload type that rtpmap attributes describe has
    the upper-cased codec name of the last of them.  The object has no
    other property.  An rtpmap value [payload name/clock] gives the payload
    type and the name; an rtpmap attribute without a value, or whose value
    has no space, is skipped. *)
Theorem getOfferedCodecs_properties
    (mediaDescription : MediaDescription) (payloadType : string) :
  let foundCodecs :=
    getOfferedCodecsInMediaDescription toUpperCase protoMember protoSetter
      mediaDescription in
  let describes a value :=
    nameIs "rtpmap" a = true /\
    rtpmapCodec toUpperCase a = Some (payloadType, value) in
  (forall value,
     foundCodecs !! payloadType = Some value ->
     protoSetter payloadType = false /\
     ((payloadType ∈ mediaFormats (media mediaDescription) /\
       value = getP codecNames payloadType) \/
      exists a, a ∈ attributes mediaDescription /\ describes a value)) /\
  (payloadType ∈ mediaFormats (media mediaDescription) ->
   protoSetter payloadType = false ->
   (forall a value, a ∈ attributes mediaDescription -> ~ describes a value) ->
   foundCodecs !! payloadType = Some (getP codecNames payloadType)) /\
  (forall before a after value,
     attributes mediaDescription = before ++ a :: after ->
     describes a value ->
     protoSetter payloadType = false ->
     (forall b value', b ∈ after -> ~ describes b value') ->
     foundCodecs !! payloadType = Some value) /\
  (getP codecNames "0" = CodecName "PCMU" /\
   getP codecNames "8" = CodecName "PCMA" /\
   (payloadType <> "0"%string -> payloadType <> "8"%string ->
    protoMember payloadType = false ->
    getP codecNames payloadType = CodecUndefined)) /\
  (forall name payload codec clock,
     noChar " " payload -> noChar " " codec -> noChar "/" codec ->
     noChar " " clock ->
     rtpmapCodec toUpperCase
       (mkAttributeField name
          (Some (payload +:+ " " +:+ codec +:+ "/" +:+ clock)))
     = Some (payload, CodecName (toUpperCase codec))) /\
  (forall name value,
     noChar " " value ->
     rtpmapCodec toUpperCase (mkAttributeField name (Some value)) = None /\
     rtpmapCodec toUpperCase (mkAttributeField name None) = None).
Proof.
  intros foundCodecs describes. unfold foundCodecs.
  rewrite getOfferedCodecs_fold.
  set (dynamic := fun a => if nameIs "rtpmap" a then rtpmapCodec toUpperCase a
                           else None).
  set (static := fun pt : string => Some (pt, getP codecNames pt)).
  assert (Hdyn : forall a value,
            dynamic a = Some (payloadType, value) <-> describes a value).
  { intros a value. unfold dynamic, describes.
    destruct (nameIs "rtpmap" a); split; intros H; try discriminate;
      try tauto. destruct H. discriminate. }
  split; [|split; [|split; [|split; [|split]]]].
  - intros value H.
    apply assign_keys in H as [H|(Hs & a & Ha & Ea)].
    + apply assign_keys in H as [H|(Hs & pt & Hpt & Ept)].
      * rewrite lookup_empty in H. discriminate.
      * unfold static in Ept. injection Ept as -> <-. auto.
    + split; [exact Hs|]. right. exists a. split; [exact Ha|].
      now apply Hdyn.
  - intros Hin Hs Hno.
    rewrite assign_other
      by (intros a value Ha E; apply Hdyn in E; exact (Hno a value Ha E)).
    apply list_elem_of_split_r in Hin as (l1 & l2 & -> & Hnot).
    apply assign_last; [reflexivity | exact Hs|].
    intros y value' Hy E. unfold static in E. injection E as -> _.
    contradiction.
  - intros before a after value -> Hd Hs Hno.
    apply assign_last; [now apply Hdyn | exact Hs|].
    intros b value' Hb E. apply Hdyn in E. exact (Hno b value' Hb E).
  - split; [reflexivity|]. split; [reflexivity|].
    intros N0 N8 Hm. unfold getProperty, codecNames.
    rewrite !lookup_insert_ne, lookup_empty by congruence. now rewrite Hm.
  - intros name payload codec clock P1 P2 P3 P4.
    unfold rtpmapCodec. cbn [attributeValue].
    change (payload +:+ " " +:+ codec +:+ "/" +:+ clock)
      with (payload +:+ String " " (codec +:+ String "/" clock)).
    rewrite (split_prefix " " payload _ P1).
    assert (Hc : noChar " " (codec +:+ String "/" clock)).
    { clear -P2 P4. induction codec as [|c codec IH]; simpl.
      - unfold noChar, chars in *. simpl. constructor; [discriminate|exact P4].
      - unfold noChar, chars in *. simpl in *.
        inversion P2; subst. constructor; auto. }
    rewrite (split_none " " _ Hc), (split_prefix "/" codec _ P3). reflexivity.
  - intros name value Hv. unfold rtpmapCodec. cbn [attributeValue].
    now rewrite (split_none " " _ Hv).
Qed.

End OfferedCodecs.

(** *** The filter *)

Section CodecFilterProperties.

Variable toUpperCase : string -> string.
Variable forIn : Codecs -> list string.
Variable protoMember : string -> bool.
Variable protoSetter : string -> bool.
Variable memberEquals : string -> string -> bool.

(** [for ... in] visits each own property once. *)
Hypothesis forIn_NoDup : forall object : Codecs, NoDup (forIn object).
Hypothesis forIn_keys :
  forall (object : Codecs) key, key ∈ forIn object <-> is_Some (object !! key).

#[local] Abbreviation equalsF := (equalsFilter memberEquals).
#[local] Abbreviation getP := (getProperty protoMember).
#[local] Abbreviation filteredBy := (filtered memberEquals).

Lemma filter_step_lookup codecFilters (object : Codecs) key key' :
  (if negb (existsb (equalsF (getP object key)) codecFilters)
   then delete key object else object) !! key'
  = if decide (key' = key) then filteredBy codecFilters (object !! key)
    else object !! key'.
Proof.
  unfold getP, filteredBy. case_decide as E.
  - subst key'. destruct (object !! key) as [v|] eqn:L.
    + destruct (existsb (equalsF v) codecFilters); simpl;
        [exact L | apply lookup_delete_eq].
    + destruct (negb _); [apply lookup_delete_eq | exact L].
  - destruct (negb _); [|reflexivity]. now rewrite lookup_delete_ne.
Qed.

Lemma filter_fold_lookup codecFilters keys :
  NoDup keys ->
  forall (object : Codecs) key,
    fold_left
      (fun foundCodecs k =>
         if negb (existsb (equalsF (getP foundCodecs k)) codecFilters)
         then delete k foundCodecs else foundCodecs)
      keys object !! key
    = if decide (key ∈ keys) then filteredBy codecFilters (object !! key)
      else object !! key.
Proof.
  induction 1 as [|k keys Hk _ IH]; intros object key; cbn [fold_left].
  - rewrite decide_False by apply not_elem_of_nil. reflexivity.
  - rewrite IH, filter_step_lookup.
    destruct (decide (key = k)) as [->|Hne].
    + rewrite decide_False by exact Hk.
      rewrite decide_True by apply list_elem_of_here. reflexivity.
    + destruct (decide (key ∈ keys)) as [Hin|Hnin].
      * rewrite decide_True by (now apply list_elem_of_further). reflexivity.
      * rewrite decide_False; [reflexivity|].
        intros Hc. apply elem_of_cons in Hc as [?|?]; contradiction.
Qed.

Lemma applyCodecFilters_lookup
    (foundCodecs : Codecs) (codecFilters : list string) (payloadType : string) :
  applyCodecFiltersOnOfferedCodecs forIn protoMember memberEquals
    foundCodecs codecFilters !! payloadType
  = filteredBy codecFilters (foundCodecs !! payloadType).
Proof.
  unfold applyCodecFiltersOnOfferedCodecs.
  rewrite (filter_fold_lookup codecFilters _ (forIn_NoDup foundCodecs)).
  case_decide as E; [reflexivity|].
  destruct (foundCodecs !! payloadType) as [v|] eqn:L; [|reflexivity].
  exfalso. apply E, forIn_keys. rewrite L. eauto.
Qed.

(** X10: [applyCodecFiltersOnOfferedCodecs] leaves in the codec object
    exactly the properties whose value is equal to one of the filters, each
    under its payload type and with its value; every other property is
    deleted and none is added.  The order in which the properties are
    visited does not matter, and applying the same filters once more
    changes nothing. *)
Theorem applyCodecFilters_keeps_matching
    (foundCodecs : Codecs) (codecFilters : list string) :
  let kept :=
    applyCodecFiltersOnOfferedCodecs forIn protoMember memberEquals
      foundCodecs codecFilters in
  (forall payloadType,
     kept !! payloadType
     = match foundCodecs !! payloadType with
       | Some value =>
           if existsb (equalsF value) codecFilters then Some value
           else None
       | None => None
       end) /\
  applyCodecFiltersOnOfferedCodecs forIn protoMember memberEquals
    kept codecFilters = kept.
Proof.
  intros kept. split.
  - intros payloadType. apply applyCodecFilters_lookup.
  - apply map_eq. intros payloadType. unfold kept.
    rewrite !applyCodecFilters_lookup. unfold filtered.
    destruct (foundCodecs !! payloadType) as [v|]; [|reflexivity].
    destruct (existsb (equalsF v) codecFilters) eqn:E;
      [now rewrite E | reflexivity].
Qed.

(** *** updateMediaDescription *)

Lemma newFormatList_fold (filteredCodecs : Codecs) codecFilters :
  forall newFormatListArray,
    fold_left
      (fun newFormatListArray filter =>
         match find (fun payloadType =>
                       equalsF (getP filteredCodecs payloadType)
                                    filter)
                    (forIn filteredCodecs) with
         | Some payloadType => newFormatListArray ++ [payloadType]
         | None => newFormatListArray
         end)
      codecFilters newFormatListArray
    = newFormatListArray
      ++ omap (fun filter =>
                 find (fun payloadType =>
                         equalsF (getP filteredCodecs payloadType)
                                      filter)
                      (forIn filteredCodecs))
              codecFilters.
Proof.
  induction codecFilters as [|f fs IH]; intros acc; simpl.
  - now rewrite app_nil_r.
  - rewrite IH. destruct (find _ _); [now rewrite <- app_assoc | reflexivity].
Qed.

Lemma newFormatList_omap (filteredCodecs : Codecs) codecFilters :
  newFormatList forIn protoMember memberEquals filteredCodecs codecFilters
  = omap (fun filter =>
            find (fun payloadType =>
                    equalsF (getP filteredCodecs payloadType) filter)
                 (forIn filteredCodecs))
         codecFilters.
Proof. unfold newFormatList. now rewrite newFormatList_fold. Qed.

Lemma find_own (filteredCodecs : Codecs) filter payloadType :
  find (fun k => equalsF (getP filteredCodecs k) filter)
       (forIn filteredCodecs) = Some payloadType ->
  exists value, filteredCodecs !! payloadType = Some value /\
                equalsF value filter = true.
Proof.
  intros H. apply find_some in H as [Hin Hp].
  apply list_elem_of_In, forIn_keys in Hin as [value L].
  exists value. split; [exact L|].
  unfold getProperty in Hp. now rewrite L in Hp.
Qed.

Lemma find_none_own (filteredCodecs : Codecs) filter payloadType value :
  find (fun k => equalsF (getP filteredCodecs k) filter)
       (forIn filteredCodecs) = None ->
  filteredCodecs !! payloadType = Some value ->
  equalsF value filter = false.
Proof.
  intros H L.
  assert (Hin : payloadType ∈ forIn filteredCodecs)
    by (apply forIn_keys; rewrite L; eauto).
  apply list_elem_of_In in Hin.
  pose proof (find_none _ _ H _ Hin) as Hp. simpl in Hp.
  unfold getProperty in Hp. now rewrite L in Hp.
Qed.

Lemma newFormatList_follows (filteredCodecs : Codecs) codecFilters :
  exists used,
    sublist used codecFilters /\
    Forall2 (fun payloadType filter =>
               exists value, filteredCodecs !! payloadType = Some value /\
                             equalsF value filter = true)
            (newFormatList forIn protoMember memberEquals
               filteredCodecs codecFilters)
            used /\
    forall filter,
      filter ∈ used <->
      filter ∈ codecFilters /\
      exists payloadType value,
        filteredCodecs !! payloadType = Some value /\
        equalsF value filter = true.
Proof.
  rewrite newFormatList_omap.
  induction codecFilters as [|f fs (used & S & F & U)]; simpl.
  - exists []. split; [constructor|]. split; [constructor|].
    intros filter. split; [intros H; inversion H | intros [H _]; inversion H].
  - destruct (find _ (forIn filteredCodecs)) as [k|] eqn:E.
    + destruct (find_own _ _ _ E) as (value & L & Hv).
      exists (f :: used). split; [now constructor|].
      split; [constructor; eauto|].
      intros filter. rewrite !elem_of_cons, U. split.
      * intros [->|[H M]]; eauto 6.
      * intros [[->|H] M]; auto.
    + exists used. split; [now constructor|]. split; [exact F|].
      intros filter. rewrite elem_of_cons, U. split.
      * intros [H M]. auto.
      * intros [[->|H] (pt & value & L & Hv)]; [|eauto].
        rewrite (find_none_own _ _ _ _ E L) in Hv. discriminate.
Qed.

Lemma find_first {A} (p : A -> bool) (l : list A) x :
  find p l = Some x ->
  exists before after,
    l = before ++ x :: after /\ p x = true /\
    Forall (fun y => p y = false) before.
Proof.
  induction l as [|a l IH]; simpl; [discriminate|].
  destruct (p a) eqn:E.
  - intros [= ->]. exists [], l. auto.
  - intros H. destruct (IH H) as (before & after & -> & Hx & F).
    exists (a :: before), after. split; [reflexivity|].
    split; [exact Hx | now constructor].
Qed.

Lemma omap_picks {A B} (f : A -> option B) (l : list A) :
  omap f l = omap id (f <$> l).
Proof.
  induction l as [|a l IH]; [reflexivity|].
  change (omap f (a :: l))
    with (match f a with Some b => b :: omap f l | None => omap f l end).
  change (omap id (f <$> a :: l))
    with (match f a with
          | Some b => b :: omap id (f <$> l)
          | None => omap id (f <$> l)
          end).
  now rewrite IH.
Qed.

(** X11: the format list [updateMediaDescription] builds follows the
    filters, not the offer.  Each filter in turn has its pick: the first
    payload type, in [for ... in] order, whose codec is equal to the
    filter, or none when no codec of the codec object is equal to it.  The
    new format list is exactly the picks that exist, one per position of
    the filter list and in that order, so that a filter listed twice puts
    the same payload type in twice; the formats the media description had
    before play no part. *)
Theorem updateMediaDescription_formats_follow_filters
    (mediaDescription : MediaDescription) (filteredCodecs : Codecs)
    (codecFilters : list string) :
  exists picks : list (option string),
    Forall2 (fun filter pick =>
               match pick with
               | Some payloadType =>
                   exists value before after,
                     filteredCodecs !! payloadType = Some value /\
                     equalsF value filter = true /\
                     forIn filteredCodecs = before ++ payloadType :: after /\
                     forall earlier value',
                       earlier ∈ before ->
                       filteredCodecs !! earlier = Some value' ->
                       equalsF value' filter = false
               | None =>
                   forall payloadType value,
                     filteredCodecs !! payloadType = Some value ->
                     equalsF value filter = false
               end)
            codecFilters picks /\
    (forall i j filter,
       codecFilters !! i = Some filter -> codecFilters !! j = Some filter ->
       picks !! i = picks !! j) /\
    mediaFormats
      (media (updateMediaDescription forIn protoMember memberEquals
                mediaDescription filteredCodecs codecFilters))
    = omap id picks.
Proof.
  exists ((fun filter =>
             find (fun k => equalsF (getP filteredCodecs k) filter)
                  (forIn filteredCodecs)) <$> codecFilters).
  split; [|split].
  - induction codecFilters as [|f fs IH]; simpl; constructor; [|exact IH].
    destruct (find _ (forIn filteredCodecs)) as [k|] eqn:E.
    + destruct (find_own _ _ _ E) as (value & L & Hv).
      destruct (find_first _ _ _ E) as (before & after & Hl & _ & F).
      exists value, before, after.
      split; [exact L|]. split; [exact Hv|]. split; [exact Hl|].
      intros earlier value' Hin L'.
      rewrite Forall_forall in F. apply F in Hin.
      unfold getProperty in Hin. now rewrite L' in Hin.
    + intros payloadType value L. exact (find_none_own _ _ _ _ E L).
  - intros i j filter Hi Hj. now rewrite !list_lookup_fmap, Hi, Hj.
  - simpl. rewrite newFormatList_omap. apply omap_picks.
Qed.

Lemma filter_sublist {A} (p : A -> bool) (l : list A) :
  sublist (List.filter p l) l.
Proof.
  induction l as [|a l IH]; simpl; [constructor|].
  destruct (p a); now constructor.
Qed.

Lemma filter_filter_implied {A} (p q : A -> bool) (l : list A) :
  (forall a, p a = true -> q a = true) ->
  List.filter p (List.filter q l) = List.filter p l.
Proof.
  intros Hpq. induction l as [|a l IH]; simpl; [reflexivity|].
  destruct (q a) eqn:Q; simpl.
  - now rewrite IH.
  - destruct (p a) eqn:P; [|exact IH]. apply Hpq in P. congruence.
Qed.

(** X12: [updateMediaDescription] only ever drops attributes, and only
    rtpmap and fmtp ones.  The attributes it leaves are a sub-sequence of
    those that were there; every attribute that is neither rtpmap nor fmtp
    is kept, in place; an rtpmap or fmtp attribute is kept exactly when it
    has a value and the text of that value before the first space names a
    property of the codec object that is not undefined.  The media type is
    not touched. *)
Theorem updateMediaDescription_attributes
    (mediaDescription : MediaDescription) (filteredCodecs : Codecs)
    (codecFilters : list string) :
  let updated :=
    updateMediaDescription forIn protoMember memberEquals
      mediaDescription filteredCodecs codecFilters in
  let codecAttribute a := nameIs "rtpmap" a || nameIs "fmtp" a in
  mediaType (media updated) = mediaType (media mediaDescription) /\
  sublist (attributes updated) (attributes mediaDescription) /\
  List.filter (fun a => negb (codecAttribute a)) (attributes updated)
    = List.filter (fun a => negb (codecAttribute a))
                  (attributes mediaDescription) /\
  (forall a,
     codecAttribute a = true ->
     (a ∈ attributes updated <->
      a ∈ attributes mediaDescription /\
      exists value,
        attributeValue a = Some value /\
        isDefined (getP filteredCodecs (hd ""%string (split " " value)))
          = true)).
Proof.
  intros updated codecAttribute. unfold updated, updateMediaDescription.
  cbn [media attributes mediaType].
  split; [reflexivity|]. split; [apply filter_sublist|]. split.
  - apply filter_filter_implied. intros a Ha.
    unfold keepsAttribute. fold (codecAttribute a).
    destruct (codecAttribute a); [discriminate | reflexivity].
  - intros a Ha. rewrite !list_elem_of_In, filter_In.
    unfold keepsAttribute. fold (codecAttribute a). rewrite Ha.
    split.
    + intros [Hin Hk]. split; [exact Hin|].
      destruct (attributeValue a) as [value|]; [|discriminate].
      exists value. split; [reflexivity|].
      destruct (split_cons " " value) as (piece & pieces & E).
      rewrite E in *. exact Hk.
    + intros [Hin (value & -> & Hk)]. split; [exact Hin|].
      destruct (split_cons " " value) as (piece & pieces & E).
      rewrite E in *. exact Hk.
Qed.

(** *** applyConfiguredCodecFilterOnSessionDescription *)

Lemma filtered_Some codecFilters (value : option CodecValue) v :
  filteredBy codecFilters value = Some v <->
  value = Some v /\ existsb (equalsF v) codecFilters = true.
Proof.
  unfold filtered. destruct value as [w|].
  - destruct (existsb (equalsF w) codecFilters) eqn:E; split.
    + intros H. injection H as ->. auto.
    + intros [H _]. exact H.
    + discriminate.
    + intros [H E']. injection H as ->. congruence.
  - split; [discriminate | intros [H _]; discriminate].
Qed.

Lemma filterMediaDescription_filtered configuration mediaDescription
    kind filterName codecsFilter :
  (kind = "audio"%string /\ filterName = "audioCodecsFilter"%string) \/
  (kind = "video"%string /\ filterName = "videoCodecsFilter"%string) ->
  mediaType (media mediaDescription) = kind ->
  configuration !! filterName = Some (ConfigString codecsFilter) ->
  codecsFilter <> ""%string ->
  filterMediaDescription toUpperCase forIn protoMember protoSetter memberEquals
    configuration mediaDescription
  = inl (updateMediaDescription forIn protoMember memberEquals
           mediaDescription
           (applyCodecFiltersOnOfferedCodecs forIn protoMember memberEquals
              (getOfferedCodecsInMediaDescription toUpperCase protoMember
                 protoSetter mediaDescription)
              (split "," codecsFilter))
           (split "," codecsFilter)).
Proof.
  intros Hk Ht Hf Hne. unfold filterMediaDescription, property.
  assert (Hn : negb (String.eqb codecsFilter "") = true).
  { apply negb_true_iff, String.eqb_neq. exact Hne. }
  destruct Hk as [[-> ->]|[-> ->]]; rewrite Ht, Hf; simpl; rewrite Hn;
    reflexivity.
Qed.

(** X14: what the configured filter leaves of a media description.  For
    an audio media description and a non-empty [audioCodecsFilter] string
    (a video one and [videoCodecsFilter] likewise), one pass of
    [applyConfiguredCodecFilterOnSessionDescription] leaves a format list
    in which every payload type is a codec of the offer equal to one of
    the comma-separated filters, and in which every filter that is equal to
    some codec of the offer has a payload type of that codec.  So a payload
    type whose codec is not in the filter, or has no known name, is gone.
    The media type is kept and no attribute is added. *)
Theorem filterMediaDescription_keeps_configured_codecs
    (configuration : Configuration) (mediaDescription : MediaDescription)
    (kind filterName codecsFilter : string) :
  (kind = "audio"%string /\ filterName = "audioCodecsFilter"%string) \/
  (kind = "video"%string /\ filterName = "videoCodecsFilter"%string) ->
  mediaType (media mediaDescription) = kind ->
  configuration !! filterName = Some (ConfigString codecsFilter) ->
  codecsFilter <> ""%string ->
  exists updated,
    filterMediaDescription toUpperCase forIn protoMember protoSetter
      memberEquals configuration mediaDescription = inl updated /\
    let offered :=
      getOfferedCodecsInMediaDescription toUpperCase protoMember protoSetter
        mediaDescription in
    mediaType (media updated) = kind /\
    (forall payloadType,
       payloadType ∈ mediaFormats (media updated) ->
       exists value filter,
         offered !! payloadType = Some value /\
         filter ∈ split "," codecsFilter /\
         equalsF value filter = true) /\
    (forall filter payloadType value,
       filter ∈ split "," codecsFilter ->
       offered !! payloadType = Some value ->
       equalsF value filter = true ->
       exists payloadType' value',
         payloadType' ∈ mediaFormats (media updated) /\
         offered !! payloadType' = Some value' /\
         equalsF value' filter = true) /\
    sublist (attributes updated) (attributes mediaDescription).
Proof.
  intros Hk Ht Hf Hne. eexists. split.
  { eapply filterMediaDescription_filtered; eassumption. }
  intros offered. fold offered.
  set (filters := split "," codecsFilter).
  set (kept := applyCodecFiltersOnOfferedCodecs forIn protoMember memberEquals
                 offered filters).
  destruct (newFormatList_follows kept filters) as (used & S & F & U).
  assert (Hkept : forall pt v, kept !! pt = Some v <->
            offered !! pt = Some v /\
            existsb (equalsF v) filters = true).
  { intros pt v. unfold kept. rewrite applyCodecFilters_lookup.
    apply filtered_Some. }
  cbn [updateMediaDescription media mediaType mediaFormats attributes].
  split; [exact Ht|]. split; [|split].
  - intros pt Hpt.
    destruct (Forall2_elem_l _ _ _ _ F Hpt) as (filter & Hu & v & L & E).
    exists v, filter. split; [now apply Hkept in L|].
    split; [eapply elem_of_sublist; eassumption | exact E].
  - intros filter pt v Hfl L E.
    assert (Hin : filter ∈ used).
    { apply U. split; [exact Hfl|]. exists pt, v. split; [|exact E].
      apply Hkept. split; [exact L|].
      apply existsb_exists. exists filter.
      split; [now apply list_elem_of_In | exact E]. }
    destruct (Forall2_elem_r _ _ _ _ F Hin) as (pt' & Hpt' & v' & L' & E').
    exists pt', v'. split; [exact Hpt'|].
    split; [now apply Hkept in L' | exact E'].
  - apply filter_sublist.
Qed.

Lemma filterWith_string_or_skipped (configuration : Configuration)
    mediaDescription name :
  (truthy (property configuration name) = true ->
   exists s, property configuration name = ConfigString s) ->
  forall kind,
  exists updated,
    (if String.eqb (mediaType (media mediaDescription)) kind
        && truthy (property configuration name)
     then
       match property configuration name with
       | ConfigString codecsFilter =>
           inl (updateMediaDescription forIn protoMember memberEquals
                  mediaDescription
                  (applyCodecFiltersOnOfferedCodecs forIn protoMember
                     memberEquals
                     (getOfferedCodecsInMediaDescription toUpperCase protoMember
                        protoSetter mediaDescription)
                     (split "," codecsFilter))
                  (split "," codecsFilter))
       | _ => inr ThrownTypeError
       end
     else inl mediaDescription) = inl updated /\
    mediaType (media updated) = mediaType (media mediaDescription) /\
    sublist (attributes updated) (attributes mediaDescription).
Proof.
  intros Hs kind.
  destruct (String.eqb _ kind); simpl;
    [|exists mediaDescription; auto].
  destruct (truthy (property configuration name)) eqn:T;
    [|exists mediaDescription; auto].
  destruct (Hs eq_refl) as [s ->].
  eexists. split; [reflexivity|]. split; [reflexivity|].
  apply filter_sublist.
Qed.

(** X15: with codec filters that are strings or are not set,
    [applyConfiguredCodecFilterOnSessionDescription] throws nothing and
    leaves as many media descriptions as there were, each with its media
    type and with no attribute that was not there.  A media description
    that is neither an audio one with an audio filter set nor a video one
    with a video filter set is left exactly as it was; so with no filter
    set, or with the empty string as filter, nothing changes at all. *)
Theorem applyConfiguredCodecFilter_frame
    (configuration : Configuration) (mediaDescriptions : list MediaDescription) :
  (forall name,
     name = "audioCodecsFilter"%string \/ name = "videoCodecsFilter"%string ->
     truthy (property configuration name) = true ->
     exists s, property configuration name = ConfigString s) ->
  exists updated,
    applyConfiguredCodecFilterOnSessionDescription
      toUpperCase forIn protoMember protoSetter memberEquals
      configuration mediaDescriptions = (updated, None) /\
    Forall2
      (fun before after =>
         mediaType (media after) = mediaType (media before) /\
         sublist (attributes after) (attributes before) /\
         (String.eqb (mediaType (media before)) "audio"
            && truthy (property configuration "audioCodecsFilter")
          || String.eqb (mediaType (media before)) "video"
             && truthy (property configuration "videoCodecsFilter") = false ->
          after = before))
      mediaDescriptions updated.
Proof.
  intros Hs.
  induction mediaDescriptions as [|md mds (updated & E & F)]; simpl.
  - exists []. split; [reflexivity | constructor].
  - assert (H : exists md',
        filterMediaDescription toUpperCase forIn protoMember protoSetter
          memberEquals configuration md = inl md' /\
        mediaType (media md') = mediaType (media md) /\
        sublist (attributes md') (attributes md) /\
        (String.eqb (mediaType (media md)) "audio"
           && truthy (property configuration "audioCodecsFilter")
         || String.eqb (mediaType (media md)) "video"
            && truthy (property configuration "videoCodecsFilter") = false ->
         md' = md)).
    { unfold filterMediaDescription.
      destruct (filterWith_string_or_skipped configuration md
                  "audioCodecsFilter" (Hs _ (or_introl eq_refl)) "audio")
        as (a & Ea & Ta & Sa).
      destruct (filterWith_string_or_skipped configuration md
                  "videoCodecsFilter" (Hs _ (or_intror eq_refl)) "video")
        as (v & Ev & Tv & Sv).
      destruct (String.eqb (mediaType (media md)) "audio"
                && truthy (property configuration "audioCodecsFilter")) eqn:A.
      - exists a. split; [exact Ea|]. split; [exact Ta|].
        split; [exact Sa | discriminate].
      - destruct (String.eqb (mediaType (media md)) "video"
                  && truthy (property configuration "videoCodecsFilter")) eqn:V.
        + exists v. split; [exact Ev|]. split; [exact Tv|].
          split; [exact Sv | discriminate].
        + exists md. auto. }
    destruct H as (md' & Em & Tm & Sm & Um).
    rewrite Em, E. exists (md' :: updated).
    split; [reflexivity|]. constructor; auto.
Qed.

End CodecFilterProperties.

(** *** On an offer *)

Lemma ownKeys_NoDup (object : Codecs) : NoDup (ownKeys object).
Proof. apply NoDup_fst_map_to_list. Qed.

Lemma ownKeys_keys (object : Codecs) key :
  key ∈ ownKeys object <-> is_Some (object !! key).
Proof.
  unfold ownKeys. rewrite list_elem_of_fmap. split.
  - intros ([k v] & -> & H). apply elem_of_map_to_list in H. simpl. eauto.
  - intros [v H]. exists (key, v). split; [reflexivity|].
    now apply elem_of_map_to_list.
Qed.

Example exampleAudio_filtered :
  filterMediaDescription asciiUpperCase ownKeys exampleMember exampleSetter
    exampleEquals exampleConfiguration exampleAudio
  = inl (mkMediaDescription
           (mkMediaField "audio" ["8"; "111"]%string)
           [mkAttributeField (Some "rtpmap") (Some "111 opus/48000/2");
            mkAttributeField (Some "fmtp") (Some "111 minptime=10");
            mkAttributeField (Some "rtpmap") (Some "8 PCMA/8000");
            mkAttributeField (Some "sendrecv") None]%string).
Proof. vm_compute. reflexivity. Qed.

Lemma applyCodecFilters_keeps_matching_witness :
  let offered :=
    getOfferedCodecsInMediaDescription asciiUpperCase exampleMember
      exampleSetter exampleAudio in
  let kept :=
    applyCodecFiltersOnOfferedCodecs ownKeys exampleMember exampleEquals
      offered ["PCMA"; "OPUS"]%string in
  kept !! "111"%string = Some (CodecName "OPUS") /\
  kept !! "103"%string = None /\
  applyCodecFiltersOnOfferedCodecs ownKeys exampleMember exampleEquals
    kept ["PCMA"; "OPUS"]%string = kept.
Proof.
  intros offered kept.
  destruct (applyCodecFilters_keeps_matching ownKeys exampleMember
              exampleEquals ownKeys_NoDup ownKeys_keys offered
              ["PCMA"; "OPUS"]%string) as [H I].
  split; [|split; [|exact I]].
  - unfold kept. rewrite H. vm_compute. reflexivity.
  - unfold kept. rewrite H. vm_compute. reflexivity.
Defined.

Lemma updateMediaDescription_formats_follow_filters_witness :
  let offered :=
    getOfferedCodecsInMediaDescription asciiUpperCase exampleMember
      exampleSetter exampleAudio in
  let codecFilters := ["OPUS"; "G722"; "OPUS"; "PCMA"]%string in
  mediaFormats
    (media (updateMediaDescription ownKeys exampleMember exampleEquals
              exampleAudio offered codecFilters))
  = ["111"; "111"; "8"]%string /\
  exists picks : list (option string),
    Forall2 (fun filter pick =>
               match pick with
               | Some payloadType =>
                   exists value before after,
                     offered !! payloadType = Some value /\
                     equalsFilter exampleEquals value filter = true /\
                     ownKeys offered = before ++ payloadType :: after /\
                     forall earlier value',
                       earlier ∈ before ->
                       offered !! earlier = Some value' ->
                       equalsFilter exampleEquals value' filter = false
               | None =>
                   forall payloadType value,
                     offered !! payloadType = Some value ->
                     equalsFilter exampleEquals value filter = false
               end)
            codecFilters picks /\
    (forall i j filter,
       codecFilters !! i = Some filter -> codecFilters !! j = Some filter ->
       picks !! i = picks !! j) /\
    mediaFormats
      (media (updateMediaDescription ownKeys exampleMember exampleEquals
                exampleAudio offered codecFilters))
    = omap id picks.
Proof.
  intros offered codecFilters. split; [vm_compute; reflexivity|].
  exact (updateMediaDescription_formats_follow_filters ownKeys exampleMember
           exampleEquals ownKeys_keys exampleAudio offered codecFilters).
Defined.

Lemma filterMediaDescription_keeps_configured_codecs_witness :
  exists updated,
    filterMediaDescription asciiUpperCase ownKeys exampleMember exampleSetter
      exampleEquals exampleConfiguration exampleAudio = inl updated /\
    mediaType (media updated) = "audio"%string /\
    sublist (attributes updated) (attributes exampleAudio).
Proof.
  destruct (filterMediaDescription_keeps_configured_codecs
              asciiUpperCase ownKeys exampleMember exampleSetter exampleEquals
              ownKeys_NoDup ownKeys_keys exampleConfiguration exampleAudio
              "audio" "audioCodecsFilter" "PCMA,OPUS")
    as (updated & E & T & _ & _ & S).
  - left. split; reflexivity.
  - reflexivity.
  - reflexivity.
  - discriminate.
  - exists updated. auto.
Defined.

Lemma applyConfiguredCodecFilter_frame_witness :
  exists updated,
    applyConfiguredCodecFilterOnSessionDescription
      asciiUpperCase ownKeys exampleMember exampleSetter exampleEquals
      exampleConfiguration
      [exampleAudio;
       mkMediaDescription (mkMediaField "video" ["100"]%string) []]
      = (updated, None) /\
    length updated = 2.
Proof.
  destruct (applyConfiguredCodecFilter_frame
              asciiUpperCase ownKeys exampleMember exampleSetter exampleEquals
              exampleConfiguration
              [exampleAudio;
               mkMediaDescription (mkMediaField "video" ["100"]%string) []])
    as (updated & E & F).
  - intros name [->| ->] T.
    + exists "PCMA,OPUS"%string. reflexivity.
    + vm_compute in T. discriminate.
  - exists updated. split; [exact E|].
    apply Forall2_length in F. simpl in F. congruence.
Defined.
